(** * A funnel hash table: model of [src/funnel_hash/_funnel_hash.pyx]

    The Cython class [FunnelHashTable] is embedded as a record of its
    [cdef] attributes together with a small state-and-exception monad in
    which each method is written the way the source writes it: the same
    loops, the same order of tests, the same early returns.

    Conventions.
    - A [cdef int] is a [Z]; where the source can leave the 32-bit range
      (the conversion of the salted hash, the addition of the probe
      offset) the two's complement wrap-around is written out.
    - Doubles are modelled twice. For the structure of the table a C
      [double] is taken as a real number: [libm] functions are their
      mathematical counterparts and arithmetic is exact (module
      [derive]). This is an idealisation: the machine rounds every
      product and quotient, so a stored constant can differ from the
      ideal one (see [max_inserts_rounds_the_product]), and for a
      [delta] so small that [1 / delta] overflows it stores
      [beta = alpha = -2 ** 31] (see the run at [delta_1e_320]). Module
      [binary64] gives the constants in the arithmetic of the machine,
      on Rocq's primitive binary64 floats.
    - A Python [object] is an element of one type [object] with a decidable
      equality (the [==] of keys, taken to be a true equality) and a hash
      function, both supplied by the caller of the table. Arguments of
      the wrong type (initial data that is not a list of pairs, keys that
      cannot be hashed) are outside the typed model.
    - The random salts are the values of a function [random : nat → Z]:
      [random n] is the [n]-th number drawn. *)

From Stdlib Require Import Floats.
From Stdlib Require Import ZArith Reals Lra Lia String.
From stdpp Require Import base list.

#[local] Set Warnings "-clear-no-such-hyp".
Local Open Scope Z_scope.

(** ** Exceptions *)

Inductive Exn : Type :=
| ValueError (msg : string)
| RuntimeError (msg : string)
| KeyError
| IndexError
| ZeroDivisionError
| OverflowError.

(** ** C integers *)

(** Conversion of an integer to a 32-bit signed [int]. *)
Definition wrap_int (x : Z) : Z := (x + 2 ^ 31) `mod` 2 ^ 32 - 2 ^ 31.

Definition fits_int (x : Z) : bool :=
  bool_decide (- 2 ^ 31 ≤ x) && bool_decide (x < 2 ^ 31).

(** [a % b] and [a // b] on C integers with Python semantics (the Cython
    default): the result takes the sign of the divisor, and a zero divisor
    raises. *)
Definition py_mod (a b : Z) : Exn + Z :=
  if bool_decide (b = 0) then inl ZeroDivisionError else inr (a `mod` b).

Definition py_floordiv (a b : Z) : Exn + Z :=
  if bool_decide (b = 0) then inl ZeroDivisionError else inr (a `div` b).

(** ** Doubles and [libc.math] *)

Module libm.
Definition log (x : R) : R := ln x.
Definition log2 (x : R) : R := (ln x / ln 2)%R.
Definition ceil (x : R) : R := IZR (- Int_part (- x)%R).
(** [pow] is only called with an integer exponent. *)
Definition pow (x : R) (n : Z) : R := powerRZ x n.
End libm.

(** Python's builtin [round(x)] of a float ([round] is not among the
    names taken from [libc.math]): the nearest integer, as a Python
    [int], and the even one of the two when [x] lies half-way. *)
Definition round (x : R) : Z :=
  let n := Int_part x in
  let r := (x - IZR n)%R in
  if Rlt_dec r (/ 2) then n
  else if Rlt_dec (/ 2) r then n + 1
  else if Z.even n then n else n + 1.

(** [int(x)] of a double assigned to a [cdef int]: a C cast, which
    truncates towards zero. *)
Definition int (x : R) : Z :=
  if Rle_dec 0 x then Int_part x else - Int_part (- x)%R.

(** ** The constants derived from [capacity] and [delta] *)

(** Over the reals. *)
Module derive.
Definition max_inserts (capacity : Z) (delta : R) : Z :=
  capacity - int (delta * IZR capacity)%R.

Definition alpha (delta : R) : Z :=
  int (libm.ceil (4 * libm.log2 (1 / delta) + 10)%R).

Definition beta (delta : R) : Z :=
  int (libm.ceil (2 * libm.log2 (1 / delta))%R).

Definition special_size (capacity : Z) (delta : R) : Z :=
  Z.max 1 (int (3 * delta * IZR capacity / 4)%R).

Definition primary_size (capacity : Z) (delta : R) : Z :=
  capacity - special_size capacity delta.

Definition a1 (total_buckets alpha : Z) : R :=
  if bool_decide (alpha > 0)
  then (IZR total_buckets / (4 * (1 - libm.pow 0.75 alpha)))%R
  else IZR total_buckets.

(** The bucket count of level [i] before it is clamped to the buckets
    that remain: [max(1, int(round(a1 * pow(0.75, i))))], where [int] of
    the Python [int] that [round] returns is that integer. *)
Definition a_i (a1 : R) (i : Z) : Z :=
  Z.max 1 (round (a1 * libm.pow 0.75 i)%R).
End derive.

(** In binary64, the arithmetic that the compiled module performs. The
    operations [*], [/] and [+] are those of the processor. *)
Module binary64.
(** Conversion of a C [int] to a [double], which is exact. *)
Definition of_int (n : Z) : float :=
  if bool_decide (n < 0)
  then PrimFloat.opp (PrimFloat.of_uint63 (Uint63.of_Z (- n)))
  else PrimFloat.of_uint63 (Uint63.of_Z n).

(** The integer part of a finite double, towards zero. *)
Definition trunc (x : float) : option Z :=
  match Prim2SF x with
  | S754_zero _ => Some 0
  | S754_finite s m e =>
      let a := Z.shiftl (Z.pos m) e in
      Some (if s then - a else a)
  | S754_infinity _ | S754_nan => None
  end.

(** [int(x)] of a double assigned to a [cdef int]: the C conversion,
    which truncates towards zero. Where the integer part does not fit
    an [int], and for an infinity or a NaN, C leaves the result
    undefined; the conversion instruction of x86-64 then gives
    [INT_MIN], and that is the value taken here. *)
Definition to_int (x : float) : Z :=
  match trunc x with
  | Some z => if fits_int z then z else - 2 ^ 31
  | None => - 2 ^ 31
  end.

(** [ceil] of [libc.math]: exact; zeros, infinities and NaN are
    returned as they are, and a result of zero keeps the sign. *)
Definition ceil (x : float) : float :=
  match Prim2SF x with
  | S754_finite s m e =>
      if bool_decide (0 ≤ e) then x else
      let q := Z.shiftl (Z.pos m) e in
      if s then (if bool_decide (q = 0) then neg_zero else of_int (- q))
      else if bool_decide (Z.shiftl q (- e) = Z.pos m) then of_int q
           else of_int (q + 1)
  | S754_zero _ | S754_infinity _ | S754_nan => x
  end.

(** [log2] of [libc.math]. The C standard fixes its value at zeros,
    infinities, NaN, negative numbers and 1; on every other argument
    the library decides, and its choice is the parameter
    [log2_finite]. *)
Definition log2 (log2_finite : float → float) (x : float) : float :=
  match Prim2SF x with
  | S754_nan => nan
  | S754_zero _ => neg_infinity
  | S754_infinity false => infinity
  | S754_infinity true => nan
  | S754_finite true _ _ => nan
  | S754_finite false _ _ =>
      if PrimFloat.eqb x 1 then zero else log2_finite x
  end.

(** [0 < delta < 1] *)
Definition valid_delta (delta : float) : bool :=
  PrimFloat.ltb 0 delta && PrimFloat.ltb delta 1.

(** [capacity - int(delta * capacity)] *)
Definition max_inserts (capacity : Z) (delta : float) : Z :=
  capacity - to_int (delta * of_int capacity)%float.

(** [int(ceil(4 * log2(1 / delta) + 10))] *)
Definition alpha (log2_finite : float → float) (delta : float) : Z :=
  to_int (ceil (4 * log2 log2_finite (1 / delta) + 10)%float).

(** [int(ceil(2 * log2(1 / delta)))] *)
Definition beta (log2_finite : float → float) (delta : float) : Z :=
  to_int (ceil (2 * log2 log2_finite (1 / delta))%float).

(** [max(1, int(3 * delta * capacity / 4))] *)
Definition special_size (capacity : Z) (delta : float) : Z :=
  Z.max 1 (to_int (3 * delta * of_int capacity / 4)%float).
End binary64.

(** ** Python lists *)

(** [len(l)] *)
Definition len {A} (l : list A) : Z := Z.of_nat (length l).

(** [l[i]] with a C integer index: a negative index counts from the end,
    an index outside the list raises. *)
Definition norm_index {A} (l : list A) (i : Z) : Z :=
  if bool_decide (i < 0) then i + len l else i.

Definition getitem {A} (l : list A) (i : Z) : Exn + A :=
  let j := norm_index l i in
  if bool_decide (0 ≤ j) then
    match l !! Z.to_nat j with
    | Some x => inr x
    | None => inl IndexError
    end
  else inl IndexError.

Definition setitem {A} (l : list A) (i : Z) (x : A) : Exn + list A :=
  let j := norm_index l i in
  if bool_decide (0 ≤ j) && bool_decide (j < len l)
  then inr (<[Z.to_nat j := x]> l)
  else inl IndexError.

(** [range(start, stop)] *)
Definition range (start stop : Z) : list Z := seqZ start (stop - start).

(** ** Entries and the table *)

Record _Entry (object : Type) : Type := Entry {
  key : object;
  value : object;
  occupied : bool
}.
Arguments Entry {object} key value occupied.
Arguments key {object} e : rename.
Arguments value {object} e : rename.
Arguments occupied {object} e : rename.

Record FunnelHashTable (object : Type) : Type := Table {
  capacity : Z;
  num_inserts : Z;
  special_occupancy : Z;
  max_inserts : Z;
  alpha : Z;
  beta : Z;
  special_size : Z;
  primary_size : Z;
  special_salt : Z;
  delta : R;
  level_salts : list Z;
  level_bucket_counts : list Z;
  levels : list (list (_Entry object));
  special_array : list (_Entry object)
}.
Arguments Table {object}.
Arguments capacity {object} t : rename.
Arguments num_inserts {object} t : rename.
Arguments special_occupancy {object} t : rename.
Arguments max_inserts {object} t : rename.
Arguments alpha {object} t : rename.
Arguments beta {object} t : rename.
Arguments special_size {object} t : rename.
Arguments primary_size {object} t : rename.
Arguments special_salt {object} t : rename.
Arguments delta {object} t : rename.
Arguments level_salts {object} t : rename.
Arguments level_bucket_counts {object} t : rename.
Arguments levels {object} t : rename.
Arguments special_array {object} t : rename.

(** ** The monad of methods: a state (the object [self]) and exceptions *)

Definition M (object : Type) (A : Type) : Type :=
  FunnelHashTable object → (Exn + A) * FunnelHashTable object.

Section monad.
Context {object : Type}.
Abbreviation M := (M object).

#[export] Instance M_ret : MRet M := λ A x s, (inr x, s).
#[export] Instance M_bind : MBind M := λ A B f m s,
  match m s with
  | (inr x, s') => f x s'
  | (inl e, s') => (inl e, s')
  end.

Definition raise {A} (e : Exn) : M A := λ s, (inl e, s).
Definition self : M (FunnelHashTable object) := λ s, (inr s, s).
Definition update (f : FunnelHashTable object → FunnelHashTable object) : M unit :=
  λ s, (inr (), f s).
Definition lift {A} (r : Exn + A) : M A := λ s, (r, s).

(** A [for] loop whose body may [return] from the enclosing method:
    [Some b] is a return with [b], [None] is falling off the end. *)
Fixpoint for_each {A B} (xs : list A) (body : A → M (option B)) : M (option B) :=
  match xs with
  | [] => mret None
  | x :: xs' =>
      r ← body x;
      match r with
      | Some b => mret (Some b)
      | None => for_each xs' body
      end
  end.

(** [try: m  except KeyError: h] *)
Definition try_except_KeyError {A} (m : M A) (h : M A) : M A := λ s,
  match m s with
  | (inl KeyError, s') => h s'
  | r => r
  end.
End monad.

(** ** The class *)

Section FunnelHashTable.
Context {object : Type} `{EqDecision object}.
(** Python's [None] and [hash]. *)
Context (PyNone : object) (hash : object → Z).

Abbreviation Entry_ := (_Entry object).
Abbreviation Table_ := (FunnelHashTable object).
Abbreviation M := (M object).

(** [_Entry()] *)
Definition Entry0 : Entry_ := Entry PyNone PyNone false.

(** *** Attribute updates *)

Definition set_levels (ls : list (list Entry_)) (t : Table_) : Table_ :=
  Table (capacity t) (num_inserts t) (special_occupancy t) (max_inserts t)
    (alpha t) (beta t) (special_size t) (primary_size t) (special_salt t)
    (delta t) (level_salts t) (level_bucket_counts t) ls (special_array t).

Definition set_special_array (a : list Entry_) (t : Table_) : Table_ :=
  Table (capacity t) (num_inserts t) (special_occupancy t) (max_inserts t)
    (alpha t) (beta t) (special_size t) (primary_size t) (special_salt t)
    (delta t) (level_salts t) (level_bucket_counts t) (levels t) a.

Definition set_num_inserts (n : Z) (t : Table_) : Table_ :=
  Table (capacity t) n (special_occupancy t) (max_inserts t)
    (alpha t) (beta t) (special_size t) (primary_size t) (special_salt t)
    (delta t) (level_salts t) (level_bucket_counts t) (levels t) (special_array t).

Definition set_special_occupancy (n : Z) (t : Table_) : Table_ :=
  Table (capacity t) (num_inserts t) n (max_inserts t)
    (alpha t) (beta t) (special_size t) (primary_size t) (special_salt t)
    (delta t) (level_salts t) (level_bucket_counts t) (levels t) (special_array t).

(** [self.levels[i][idx]] *)
Definition level_entry (i idx : Z) : M Entry_ :=
  t ← self;
  level ← lift (getitem (levels t) i);
  lift (getitem level idx).

(** [self.levels[i][idx] = e] *)
Definition set_level_entry (i idx : Z) (e : Entry_) : M unit :=
  t ← self;
  level ← lift (getitem (levels t) i);
  level' ← lift (setitem level idx e);
  ls ← lift (setitem (levels t) i level');
  update (set_levels ls).

(** [self.special_array[idx]] *)
Definition special_entry (idx : Z) : M Entry_ :=
  t ← self;
  lift (getitem (special_array t) idx).

(** [self.special_array[idx] = e] *)
Definition set_special_entry (idx : Z) (e : Entry_) : M unit :=
  t ← self;
  a ← lift (setitem (special_array t) idx e);
  update (set_special_array a).

(** *** Hashing *)

Definition _hash (k : object) (salt : Z) : Z :=
  let hashed := wrap_int (Z.lxor (hash k) salt) in
  Z.land hashed 0x7FFFFFFF.

Definition _hash_level (k : object) (level_index : Z) : M Z :=
  t ← self;
  salt ← lift (getitem (level_salts t) level_index);
  mret (_hash k salt).

Definition _hash_special (k : object) : M Z :=
  t ← self;
  mret (_hash k (special_salt t)).

(** [max(1, int(ceil(log(log(self.capacity + 1) + 1))))] *)
Definition probe_limit (t : Table_) : Z :=
  Z.max 1 (int (libm.ceil
    (libm.log (libm.log (IZR (wrap_int (capacity t + 1))) + 1)%R))).

(** The bucket of the key [k] in level [i]: the slots [start .. end - 1]. *)
Definition bucket_range (k : object) (i : Z) : M (list Z) :=
  t ← self;
  h ← _hash_level k i;
  count ← lift (getitem (level_bucket_counts t) i);
  bucket_index ← lift (py_mod h count);
  let start := bucket_index * beta t in
  let end_ := start + beta t in
  mret (range start end_).

(** The [j]-th slot probed in the special array. *)
Definition special_index (k : object) (size j : Z) : M Z :=
  h ← _hash_special k;
  lift (py_mod (wrap_int (h + j)) size).

(** *** insert *)

Definition insert (k v : object) : M unit :=
  t ← self;
  if bool_decide (num_inserts t >= max_inserts t)
  then raise (RuntimeError "Hash table is full.") else
  r ← for_each (range 0 (len (levels t))) (λ i,
    idxs ← bucket_range k i;
    for_each idxs (λ idx,
      e ← level_entry i idx;
      if negb (occupied e) || bool_decide (key e = k) then
        set_level_entry i idx (Entry k v true);;
        update (λ t, set_num_inserts (num_inserts t + 1) t);;
        mret (Some ())
      else mret None));
  match r with
  | Some _ => mret ()
  | None =>
      t ← self;
      let size := len (special_array t) in
      r ← for_each (range 0 (probe_limit t)) (λ j,
        idx ← special_index k size j;
        e ← special_entry idx;
        if negb (occupied e) || bool_decide (key e = k) then
          set_special_entry idx (Entry k v true);;
          update (λ t, set_special_occupancy (special_occupancy t + 1) t);;
          update (λ t, set_num_inserts (num_inserts t + 1) t);;
          mret (Some ())
        else mret None);
      match r with
      | Some _ => mret ()
      | None => raise (RuntimeError "Special array insertion failed; table is full.")
      end
  end.

(** *** get *)

(** [default_value] is [None] when the caller passes no fallback. *)
Definition get (k : object) (default_value : option object) : M object :=
  t ← self;
  r ← for_each (range 0 (len (levels t))) (λ i,
    idxs ← bucket_range k i;
    for_each idxs (λ idx,
      e ← level_entry i idx;
      if occupied e && bool_decide (key e = k)
      then mret (Some (value e))
      else mret None));
  match r with
  | Some v => mret v
  | None =>
      let size := len (special_array t) in
      r ← for_each (range 0 (probe_limit t)) (λ j,
        idx ← special_index k size j;
        e ← special_entry idx;
        if occupied e && bool_decide (key e = k)
        then mret (Some (value e))
        else mret None);
      match r with
      | Some v => mret v
      | None =>
          match default_value with
          | None => raise KeyError
          | Some d => mret d
          end
      end
  end.

(** *** Iteration *)

Definition entry_items (es : list Entry_) : list (object * object) :=
  (λ e, (key e, value e)) <$> filter (λ e, occupied e = true) es.

Definition items (t : Table_) : list (object * object) :=
  mjoin (entry_items <$> levels t) ++ entry_items (special_array t).

Definition keys (t : Table_) : list object := fst <$> items t.
Definition values (t : Table_) : list object := snd <$> items t.

(** *** The mapping protocol *)

Definition __getitem__ (k : object) : M object := get k None.

Definition __setitem__ (k v : object) : M unit := insert k v.

Definition __contains__ (k : object) : M bool :=
  try_except_KeyError (get k None;; mret true) (mret false).

Definition __len__ (t : Table_) : Z := num_inserts t.

Definition __delitem__ (k : object) : M unit :=
  t ← self;
  r ← for_each (range 0 (len (levels t))) (λ i,
    idxs ← bucket_range k i;
    for_each idxs (λ idx,
      e ← level_entry i idx;
      if occupied e && bool_decide (key e = k) then
        set_level_entry i idx Entry0;;
        update (λ t, set_num_inserts (num_inserts t - 1) t);;
        mret (Some ())
      else mret None));
  match r with
  | Some _ => mret ()
  | None =>
      t ← self;
      let size := len (special_array t) in
      r ← for_each (range 0 (probe_limit t)) (λ j,
        idx ← special_index k size j;
        e ← special_entry idx;
        if occupied e && bool_decide (key e = k) then
          set_special_entry idx Entry0;;
          update (λ t, set_special_occupancy (special_occupancy t - 1) t);;
          update (λ t, set_num_inserts (num_inserts t - 1) t);;
          mret (Some ())
        else mret None);
      match r with
      | Some _ => mret ()
      | None => raise KeyError
      end
  end.

Definition pop (k : object) (default : option object) : M object :=
  try_except_KeyError
    (v ← __getitem__ k; __delitem__ k;; mret v)
    (match default with
     | None => raise KeyError
     | Some d => mret d
     end).

(** [for key in keys: del self[key]] *)
Fixpoint delete_all (ks : list object) : M unit :=
  match ks with
  | [] => mret ()
  | k :: ks' => __delitem__ k;; delete_all ks'
  end.

Definition clear : M unit :=
  t ← self;
  delete_all (keys t).

(** *** __init__ *)

(** The loop over [range(self.alpha)] that creates the levels. The
    result lists what was appended to [level_bucket_counts],
    [level_salts] and [levels]; [n] counts the random numbers drawn so
    far. *)
Fixpoint build_levels (beta : Z) (a1 : R) (random : nat → Z) (n : nat)
    (indices : list Z) (remaining_buckets : Z)
    : list Z * list Z * list (list Entry_) :=
  match indices with
  | [] => ([], [], [])
  | i :: indices' =>
      let a_i := derive.a_i a1 i in
      if bool_decide (remaining_buckets ≤ 0) || bool_decide (a_i ≤ 0)
      then ([], [], [])
      else
        let a_i := Z.min a_i remaining_buckets in
        let '(counts, salts, ls) :=
          build_levels beta a1 random (S n) indices' (remaining_buckets - a_i) in
        (a_i :: counts,
         random n :: salts,
         replicate (Z.to_nat (a_i * beta)) Entry0 :: ls)
  end.

(** [for key, value in data: self.insert(key, value)] *)
Fixpoint insert_all (data : list (object * object)) : M unit :=
  match data with
  | [] => mret ()
  | (k, v) :: data' => insert k v;; insert_all data'
  end.

(** [random n] is the [n]-th number that [next_positive_random()]
    returns. *)
Definition __init__ (capacity : Z) (data : option (list (object * object)))
    (delta : R) (random : nat → Z) : Exn + Table_ :=
  if negb (fits_int capacity) then inl OverflowError else
  if bool_decide (capacity < 1)
  then inl (ValueError "Capacity must be at least 1.") else
  match Rlt_dec 0 delta, Rlt_dec delta 1 with
  | left _, left _ =>
      let max_inserts := derive.max_inserts capacity delta in
      let alpha := derive.alpha delta in
      let beta := derive.beta delta in
      let special_size := derive.special_size capacity delta in
      let primary_size := capacity - special_size in
      match py_floordiv primary_size beta with
      | inl e => inl e
      | inr total_buckets =>
          let a1 := derive.a1 total_buckets alpha in
          let '(counts, salts, ls) :=
            build_levels beta a1 random 0 (range 0 alpha) total_buckets in
          let t :=
            Table capacity 0 0 max_inserts alpha beta special_size
              primary_size (random (length salts)) delta salts counts ls
              (replicate (Z.to_nat special_size) Entry0) in
          match data with
          | None => inr t
          | Some data =>
              match insert_all data t with
              | (inr _, t') => inr t'
              | (inl e, _) => inl e
              end
          end
      end
  | _, _ => inl (ValueError "Delta must be between 0 and 1.")
  end.

(** *** Calls from outside and the states they reach *)

Inductive call : Type :=
| Call_insert (k v : object)
| Call_get (k : object) (default_value : option object)
| Call_contains (k : object)
| Call_delitem (k : object)
| Call_pop (k : object) (default : option object)
| Call_clear.

(** The table after a call, whether it returned or raised. *)
Definition exec (c : call) (t : Table_) : Table_ :=
  match c with
  | Call_insert k v => (insert k v t).2
  | Call_get k d => (get k d t).2
  | Call_contains k => (__contains__ k t).2
  | Call_delitem k => (__delitem__ k t).2
  | Call_pop k d => (pop k d t).2
  | Call_clear => (clear t).2
  end.

(** The exception that a call raises, if it raises. *)
Definition raised {A} (r : (Exn + A) * Table_) : option Exn :=
  match r.1 with
  | inl err => Some err
  | inr _ => None
  end.

Definition outcome (c : call) (t : Table_) : option Exn :=
  match c with
  | Call_insert k v => raised (insert k v t)
  | Call_get k d => raised (get k d t)
  | Call_contains k => raised (__contains__ k t)
  | Call_delitem k => raised (__delitem__ k t)
  | Call_pop k d => raised (pop k d t)
  | Call_clear => raised (clear t)
  end.

Definition exec_all (cs : list call) (t : Table_) : Table_ :=
  foldl (λ t c, exec c t) t cs.

Inductive reachable : Table_ → Prop :=
| reachable_init capacity data delta random t :
    __init__ capacity data delta random = inr t → reachable t
| reachable_exec c t :
    reachable t → reachable (exec c t).

(** A call that may remove or rewrite the entry of the key [k]. *)
Definition touches (k : object) (c : call) : Prop :=
  match c with
  | Call_insert k' _ | Call_delitem k' | Call_pop k' _ => k' = k
  | Call_clear => True
  | Call_get _ _ | Call_contains _ => False
  end.

(** *** Slots and probe paths

    The slots that the three scans ([insert], [get], [__delitem__])
    visit for a key, in the order of the visit: for each level the
    bucket of the key, then the probe window of the special array. *)

Inductive slot : Type :=
| LevelSlot (i idx : Z)
| SpecialSlot (idx : Z).

#[export] Instance slot_eq_dec : EqDecision slot.
Proof. solve_decision. Defined.

Definition entry_at (t : Table_) (s : slot) : option Entry_ :=
  match s with
  | LevelSlot i idx =>
      if bool_decide (0 ≤ i) && bool_decide (0 ≤ idx)
      then level ← levels t !! Z.to_nat i; level !! Z.to_nat idx
      else None
  | SpecialSlot idx =>
      if bool_decide (0 ≤ idx) then special_array t !! Z.to_nat idx else None
  end.

Definition put_entry (s : slot) (e : Entry_) (t : Table_) : Table_ :=
  match s with
  | LevelSlot i idx =>
      match levels t !! Z.to_nat i with
      | Some level =>
          set_levels
            (<[Z.to_nat i := <[Z.to_nat idx := e]> level]> (levels t)) t
      | None => t
      end
  | SpecialSlot idx =>
      set_special_array (<[Z.to_nat idx := e]> (special_array t)) t
  end.

Definition bucket_start (t : Table_) (k : object) (i : Z) : Z :=
  let salt := level_salts t !!! Z.to_nat i in
  let count := level_bucket_counts t !!! Z.to_nat i in
  (_hash k salt `mod` count) * beta t.

Definition bucket_slots (t : Table_) (k : object) (i : Z) : list slot :=
  LevelSlot i <$> range (bucket_start t k i) (bucket_start t k i + beta t).

Definition level_path (t : Table_) (k : object) : list slot :=
  mjoin (bucket_slots t k <$> range 0 (len (levels t))).

Definition special_slot (t : Table_) (k : object) (j : Z) : slot :=
  SpecialSlot
    (wrap_int (_hash k (special_salt t) + j) `mod` len (special_array t)).

Definition special_path (t : Table_) (k : object) : list slot :=
  special_slot t k <$> range 0 (probe_limit t).

Definition path (t : Table_) (k : object) : list slot :=
  level_path t k ++ special_path t k.

(** The first element of a list whose entry passes a test. *)
Fixpoint find_first {A} (f : A → option Entry_) (test : Entry_ → bool)
    (xs : list A) : option (A * Entry_) :=
  match xs with
  | [] => None
  | x :: xs' =>
      match f x with
      | Some e => if test e then Some (x, e) else find_first f test xs'
      | None => find_first f test xs'
      end
  end.

Definition find_slot (test : Entry_ → bool) (t : Table_) (ss : list slot)
    : option (slot * Entry_) :=
  find_first (entry_at t) test ss.

(** The tests of the scans. *)
Definition free_or_key (k : object) (e : Entry_) : bool :=
  negb (occupied e) || bool_decide (key e = k).

Definition holds_key (k : object) (e : Entry_) : bool :=
  occupied e && bool_decide (key e = k).

(** What a lookup of the key [k] sees in the slot [s]. *)
Definition key_view (k : object) (t : Table_) (s : slot) : option object :=
  e ← entry_at t s;
  if holds_key k e then Some (value e) else None.

(** What [insert] and [__delitem__] do once the scan has stopped at the
    slot [s]. *)
Definition insert_at (s : slot) (k v : object) (t : Table_) : Table_ :=
  let t := put_entry s (Entry k v true) t in
  let t :=
    match s with
    | LevelSlot _ _ => t
    | SpecialSlot _ => set_special_occupancy (special_occupancy t + 1) t
    end in
  set_num_inserts (num_inserts t + 1) t.

Definition delete_at (s : slot) (t : Table_) : Table_ :=
  let t := put_entry s Entry0 t in
  let t :=
    match s with
    | LevelSlot _ _ => t
    | SpecialSlot _ => set_special_occupancy (special_occupancy t - 1) t
    end in
  set_num_inserts (num_inserts t - 1) t.

(** Every occupied slot lies on the probe path of the key it holds. *)
Definition on_path (t : Table_) : Prop :=
  ∀ s e, entry_at t s = Some e → occupied e = true → s ∈ path t (key e).

(** The invariant of the structure that [__init__] builds. *)
Record well_formed (t : Table_) : Prop := {
  wf_salts : length (level_salts t) = length (levels t);
  wf_counts : length (level_bucket_counts t) = length (levels t);
  wf_beta : 0 ≤ beta t;
  wf_levels : ∀ i count level,
    level_bucket_counts t !! i = Some count →
    levels t !! i = Some level →
    1 ≤ count ∧ len level = count * beta t;
  wf_special : 1 ≤ len (special_array t);
  wf_special_size : len (special_array t) = special_size t
}.

(** Two tables with the same layout: only entries and counters differ. *)
Definition same_layout (t t' : Table_) : Prop :=
  special_size t' = special_size t ∧
  capacity t' = capacity t ∧ max_inserts t' = max_inserts t ∧
  beta t' = beta t ∧ special_salt t' = special_salt t ∧
  level_salts t' = level_salts t ∧
  level_bucket_counts t' = level_bucket_counts t ∧
  length <$> levels t' = length <$> levels t ∧
  length (special_array t') = length (special_array t).

(** Number of occupied slots. *)
Definition occupied_slots (t : Table_) : Z := len (items t).


(** Two tables that differ in entries and counters only: every constant
    of the construction is the same. *)
Definition frozen (t t' : Table_) : Prop :=
  alpha t' = alpha t ∧ primary_size t' = primary_size t ∧
  delta t' = delta t ∧ same_layout t t'.

(** The value of the last pair with the key [k] in a list of pairs. *)
Definition lookup_last (k : object) (data : list (object * object))
    : option object :=
  foldl (λ acc kv, if decide (kv.1 = k) then Some kv.2 else acc) None data.

(** Calls that do not delete. *)
Definition no_delete (c : call) : Prop :=
  match c with
  | Call_insert _ _ | Call_get _ _ | Call_contains _ => True
  | Call_delitem _ | Call_pop _ _ | Call_clear => False
  end.

(** No free slot comes before the slot that holds a key on its probe
    path: the scan of [insert] for a key that is in the table stops at
    the slot that holds it. *)
Definition compact (t : Table_) : Prop :=
  ∀ k s e, find_slot (holds_key k) t (path t k) = Some (s, e) →
           find_slot (free_or_key k) t (path t k) = Some (s, e).

(** Every free slot holds the default entry. *)
Definition free_default (t : Table_) : Prop :=
  ∀ s e, entry_at t s = Some e → occupied e = false → e = Entry0.

(** The state of a table that has only been inserted into. *)
Definition tidy (t : Table_) : Prop :=
  well_formed t ∧ on_path t ∧ compact t ∧ NoDup (keys t).

End FunnelHashTable.

(** ** Python objects for concrete runs: [None] and integers *)

Module Example.
Inductive object : Type :=
| PyNone
| PyInt (n : Z).

#[export] Instance object_eq_dec : EqDecision object.
Proof. solve_decision. Defined.

(** [hash(n)] of an integer reduces modulo [2**61 - 1], keeps the sign
    and avoids [-1]; the value for [None] is a constant of the
    interpreter. *)
Definition hash (o : object) : Z :=
  match o with
  | PyNone => 4238894112
  | PyInt n =>
      let h := Z.sgn n * (Z.abs n `mod` (2 ^ 61 - 1)) in
      if bool_decide (h = -1) then -2 else h
  end.

(** A random source: a linear congruential generator reduced to the
    range of [next_positive_random]. *)
Fixpoint lcg (n : nat) : Z :=
  match n with
  | O => 12345
  | S n' => (1103515245 * lcg n' + 12345) `mod` 2 ^ 31
  end.

(** [FunnelHashTable(capacity=5, delta=0.5)] *)
Definition table0 : FunnelHashTable object :=
  Table 5 0 0 3 14 2 1 4 (lcg 2) (1 / 2)%R [lcg 0; lcg 1] [1; 1]
    [replicate 2 (Entry0 PyNone); replicate 2 (Entry0 PyNone)]
    [Entry0 PyNone].

Abbreviation insert := (insert hash).
Abbreviation get := (get hash).
Abbreviation __delitem__ := (__delitem__ PyNone hash).
Abbreviation __contains__ := (__contains__ hash).
Abbreviation clear := (clear PyNone hash).
Abbreviation exec_all := (exec_all PyNone hash).
Abbreviation reachable := (reachable PyNone hash).
Abbreviation path := (path hash).

(** [t[1] = 10; t[2] = 20; del t[1]] *)
Definition table_with_hole : FunnelHashTable object :=
  exec_all
    [Call_insert (PyInt 1) (PyInt 10); Call_insert (PyInt 2) (PyInt 20);
     Call_delitem (PyInt 1)]
    table0.

(** ... followed by [t[2] = 30] *)
Definition table_with_duplicate : FunnelHashTable object :=
  exec_all [Call_insert (PyInt 2) (PyInt 30)] table_with_hole.

(** [t[1] = 10; t[1] = 20] *)
Definition table_overwritten : FunnelHashTable object :=
  exec_all
    [Call_insert (PyInt 1) (PyInt 10); Call_insert (PyInt 1) (PyInt 20)]
    table0.

(** [FunnelHashTable(capacity=30)], the table of the README. *)
Definition table30 : FunnelHashTable object :=
  Table 30 0 0 27 24 7 2 28 (lcg 4) (1 / 10)%R
    [lcg 0; lcg 1; lcg 2; lcg 3] [1; 1; 1; 1]
    (replicate 4 (replicate 7 (Entry0 PyNone)))
    (replicate 2 (Entry0 PyNone)).

(** Calls that do not touch the key 1, and the table after them. *)
Definition other_calls : list (call (object:=object)) :=
  [Call_insert (PyInt 2) (PyInt 20); Call_delitem (PyInt 2);
   Call_pop (PyInt 3) None].

Definition table_after_other_calls : FunnelHashTable object :=
  exec_all other_calls table_overwritten.

(** The same two pairs in two orders, and the tables
    [FunnelHashTable(5, pairs, 0.5)]. *)
Definition pairs : list (object * object) :=
  [(PyInt 1, PyInt 10); (PyInt 2, PyInt 20)].

Definition pairs_swapped : list (object * object) :=
  [(PyInt 2, PyInt 20); (PyInt 1, PyInt 10)].

Definition table_of_pairs : FunnelHashTable object :=
  (insert_all hash pairs table0).2.

Definition table_of_pairs_swapped : FunnelHashTable object :=
  (insert_all hash pairs_swapped table0).2.

(** [t[1] = 10; t[2] = 20; t[3] = 30] *)
Definition table_full : FunnelHashTable object :=
  exec_all
    [Call_insert (PyInt 1) (PyInt 10); Call_insert (PyInt 2) (PyInt 20);
     Call_insert (PyInt 3) (PyInt 30)]
    table0.

(** [FunnelHashTable(capacity=20, delta=0.5)]: the first level has two
    buckets. The keys 1 and 2 fall into different ones. *)
Definition table20 : FunnelHashTable object :=
  Table 20 0 0 10 14 2 7 13 (lcg 5) (1 / 2)%R
    [lcg 0; lcg 1; lcg 2; lcg 3; lcg 4] [2; 1; 1; 1; 1]
    (replicate 4 (Entry0 PyNone) :: replicate 4 (replicate 2 (Entry0 PyNone)))
    (replicate 7 (Entry0 PyNone)).

(** [t[2] = 20] and [t[2] = 30] on this table. *)
Definition table20_a : FunnelHashTable object :=
  exec_all [Call_insert (PyInt 2) (PyInt 20)] table20.

Definition table20_b : FunnelHashTable object :=
  exec_all [Call_insert (PyInt 2) (PyInt 30)] table20.

(** The double that the literal [1e-320] denotes, [2024 * 2 ** -1074],
    and the double that [0.3] denotes. *)
Definition delta_1e_320 : float := 0x7e8p-1074%float.

Definition delta_0_3 : float := 0x1.3333333333333p-2%float.

(** [t[1] = 10] *)
Definition table_one : FunnelHashTable object :=
  exec_all [Call_insert (PyInt 1) (PyInt 10)] table0.

(** [t[1] = 10; t[1] = 20; t[2] = 20] *)
Definition table_two_keys : FunnelHashTable object :=
  exec_all [Call_insert (PyInt 2) (PyInt 20)] table_overwritten.
End Example.

(** * Properties *)

(** ** Numbers *)

Section numbers.
Lemma Int_part_bounds (x : R) : (IZR (Int_part x) <= x < IZR (Int_part x) + 1)%R.
Proof. destruct (base_Int_part x). lra. Qed.

Lemma Int_part_IZR (n : Z) : Int_part (IZR n) = n.
Proof. symmetry. apply Int_part_spec. lra. Qed.

Lemma int_IZR (n : Z) : int (IZR n) = n.
Proof.
  unfold int. destruct (Rle_dec 0 (IZR n)).
  - apply Int_part_IZR.
  - rewrite <- opp_IZR, Int_part_IZR. lia.
Qed.

Lemma int_nonneg (x : R) : (0 <= x)%R → int x = Int_part x.
Proof. intros Hx. unfold int. destruct (Rle_dec 0 x); [done | lra]. Qed.

Lemma int_bounds (x : R) (n : Z) : (0 <= x < IZR n)%R → 0 ≤ int x < n.
Proof.
  intros [H0 Hn]. rewrite int_nonneg by done.
  pose proof (Int_part_bounds x) as [Hl Hu]. split.
  - assert (-1 < Int_part x); [| lia]. apply lt_IZR. lra.
  - apply lt_IZR. lra.
Qed.

Lemma int_ceil (x : R) : int (libm.ceil x) = - Int_part (- x)%R.
Proof. apply int_IZR. Qed.

Lemma int_ceil_pos (x : R) : (0 < x)%R → 1 ≤ int (libm.ceil x).
Proof.
  intros Hx. rewrite int_ceil.
  pose proof (Int_part_bounds (- x)) as [Hl _].
  assert (Int_part (- x) < 0); [| lia]. apply lt_IZR. lra.
Qed.

Lemma log2_inv_pos (delta : R) :
  (0 < delta < 1)%R → (0 < libm.log2 (1 / delta))%R.
Proof.
  intros [H0 H1]. unfold libm.log2.
  assert (0 < ln 2)%R by (pose proof ln_lt_2; lra).
  assert (1 < 1 / delta)%R.
  { apply Rmult_lt_reg_r with delta; [done |]. field_simplify; lra. }
  assert (0 < ln (1 / delta))%R.
  { rewrite <- ln_1. apply ln_increasing; lra. }
  apply Rdiv_lt_0_compat; done.
Qed.

Lemma beta_pos (delta : R) : (0 < delta < 1)%R → 1 ≤ derive.beta delta.
Proof.
  intros Hd. apply int_ceil_pos. pose proof (log2_inv_pos delta Hd). lra.
Qed.

Lemma alpha_pos (delta : R) : (0 < delta < 1)%R → 1 ≤ derive.alpha delta.
Proof.
  intros Hd. apply int_ceil_pos. pose proof (log2_inv_pos delta Hd). lra.
Qed.

Lemma max_inserts_bounds (capacity : Z) (delta : R) :
  1 ≤ capacity → (0 < delta < 1)%R →
  0 < derive.max_inserts capacity delta ≤ capacity.
Proof.
  intros Hc [H0 H1]. unfold derive.max_inserts.
  assert (1 <= IZR capacity)%R by (apply IZR_le in Hc; done).
  assert (0 ≤ int (delta * IZR capacity) < capacity); [| lia].
  apply int_bounds. split; nra.
Qed.

Lemma special_size_bounds (capacity : Z) (delta : R) :
  1 ≤ capacity → (0 < delta < 1)%R →
  1 ≤ derive.special_size capacity delta ≤ capacity.
Proof.
  intros Hc [H0 H1]. unfold derive.special_size.
  assert (1 <= IZR capacity)%R by (apply IZR_le in Hc; done).
  assert (0 ≤ int (3 * delta * IZR capacity / 4) < capacity); [| lia].
  apply int_bounds. split; nra.
Qed.

Lemma int_floor_eq (x : R) (n : Z) :
  (0 <= x)%R → (IZR n <= x < IZR n + 1)%R → int x = n.
Proof.
  intros H0 Hn. rewrite int_nonneg by done. symmetry.
  apply Int_part_spec. lra.
Qed.

Lemma int_ceil_eq (x : R) (n : Z) :
  (IZR n - 1 < x <= IZR n)%R → int (libm.ceil x) = n.
Proof.
  intros Hn. rewrite int_ceil.
  assert (- n = Int_part (- x)) as <-; [| lia].
  apply Int_part_spec. rewrite opp_IZR. lra.
Qed.

Lemma round_eq (x : R) (n : Z) :
  (IZR n - / 2 < x < IZR n + / 2)%R → round x = n.
Proof.
  intros Hn. unfold round.
  pose proof (Int_part_bounds x) as Hf.
  set (f := Int_part x) in *.
  assert (n - 1 ≤ f ≤ n) as Hcases.
  { split.
    - apply Z.lt_succ_r, lt_IZR. rewrite succ_IZR, minus_IZR. lra.
    - apply Z.lt_succ_r, lt_IZR. rewrite succ_IZR. lra. }
  assert (f = n ∨ f = n - 1) as [-> | ->] by lia.
  - destruct (Rlt_dec (x - IZR n) (/ 2)); [done | lra].
  - rewrite minus_IZR in *.
    destruct (Rlt_dec (x - (IZR n - 1)) (/ 2)); [lra |].
    destruct (Rlt_dec (/ 2) (x - (IZR n - 1))); [lia | lra].
Qed.

Lemma a_i_pos (a1 : R) (i : Z) : 1 ≤ derive.a_i a1 i.
Proof. unfold derive.a_i. lia. Qed.

(** The constants for [capacity = 5] and [delta = 0.5]. *)
Lemma log2_inv_half : libm.log2 (1 / (1 / 2)) = 1%R.
Proof.
  unfold libm.log2. replace (1 / (1 / 2))%R with 2%R by lra.
  pose proof ln_lt_2. apply Rdiv_diag. lra.
Qed.

Lemma beta_half : derive.beta (1 / 2) = 2.
Proof.
  unfold derive.beta. rewrite log2_inv_half. apply int_ceil_eq. lra.
Qed.

Lemma alpha_half : derive.alpha (1 / 2) = 14.
Proof.
  unfold derive.alpha. rewrite log2_inv_half. apply int_ceil_eq. lra.
Qed.

Lemma max_inserts_5_half : derive.max_inserts 5 (1 / 2) = 3.
Proof.
  unfold derive.max_inserts. rewrite (int_floor_eq _ 2); [done | lra..].
Qed.

Lemma special_size_5_half : derive.special_size 5 (1 / 2) = 1.
Proof.
  unfold derive.special_size. rewrite (int_floor_eq _ 1); [done | lra..].
Qed.

Lemma a_0_5_half : derive.a_i (derive.a1 2 14) 0 = 1.
Proof.
  unfold derive.a_i, derive.a1, libm.pow.
  rewrite bool_decide_eq_true_2 by lia.
  change (powerRZ 0.75 0) with 1%R.
  change (powerRZ 0.75 14) with (0.75 ^ 14)%R.
  assert (0 < 0.75 ^ 14 < / 2)%R as Hp by lra.
  set (p := (0.75 ^ 14)%R) in *. clearbody p.
  assert (2 / (4 * (1 - p)) * 1 = / (2 * (1 - p)))%R as ->
    by (field; lra).
  assert (/ 2 < / (2 * (1 - p)) < / 1)%R as Hx.
  { split; apply Rinv_lt_contravar; lra. }
  rewrite (round_eq _ 1); [done | lra].
Qed.

(** [n < m * log2 x <= n'] from [2 ^ n < x ^ m <= 2 ^ n']. *)
Lemma log2_pow_bounds (x : R) (m n n' : nat) :
  (0 < x)%R → (2 ^ n < x ^ m <= 2 ^ n')%R →
  (INR n < INR m * libm.log2 x <= INR n')%R.
Proof.
  intros Hx [Hlo Hhi]. unfold libm.log2.
  assert (0 < ln 2)%R as Hln2 by (pose proof ln_lt_2; lra).
  assert (0 < x ^ m)%R as Hxm by (by apply pow_lt).
  assert (0 < 2 ^ n)%R as H2n by (apply pow_lt; lra).
  assert (INR m * (ln x / ln 2) = ln (x ^ m) / ln 2)%R as ->
    by (rewrite ln_pow by done; field; lra).
  assert (INR n = ln (2 ^ n) / ln 2)%R as ->
    by (rewrite ln_pow by lra; field; lra).
  assert (INR n' = ln (2 ^ n') / ln 2)%R as ->
    by (rewrite ln_pow by lra; field; lra).
  split.
  - apply Rmult_lt_compat_r; [by apply Rinv_0_lt_compat |].
    by apply ln_increasing.
  - apply Rmult_le_compat_r; [left; by apply Rinv_0_lt_compat |].
    destruct Hhi as [Hlt | ->]; [| lra].
    left. by apply ln_increasing.
Qed.

(** The constants for [capacity = 30] and [delta = 0.1]. *)
Lemma beta_tenth : derive.beta (1 / 10) = 7.
Proof.
  unfold derive.beta. replace (1 / (1 / 10))%R with 10%R by lra.
  pose proof (log2_pow_bounds 10 2 6 7) as Hb. simpl INR in Hb.
  apply int_ceil_eq. lra.
Qed.

Lemma alpha_tenth : derive.alpha (1 / 10) = 24.
Proof.
  unfold derive.alpha. replace (1 / (1 / 10))%R with 10%R by lra.
  pose proof (log2_pow_bounds 10 4 13 14) as Hb. simpl INR in Hb.
  apply int_ceil_eq. lra.
Qed.

Lemma max_inserts_30_tenth : derive.max_inserts 30 (1 / 10) = 27.
Proof.
  unfold derive.max_inserts. rewrite (int_floor_eq _ 3); [done | lra..].
Qed.

Lemma special_size_30_tenth : derive.special_size 30 (1 / 10) = 2.
Proof.
  unfold derive.special_size. rewrite (int_floor_eq _ 2); [done | lra..].
Qed.

Lemma a1_30_tenth : (1 <= derive.a1 4 24 < 101 / 100)%R.
Proof.
  unfold derive.a1, libm.pow. rewrite bool_decide_eq_true_2 by lia.
  change (powerRZ 0.75 24) with (0.75 ^ 24)%R.
  assert (0 < 0.75 ^ 24 < / 200)%R as Hp by lra.
  set (p := (0.75 ^ 24)%R) in *. clearbody p.
  assert (4 / (4 * (1 - p)) = / (1 - p))%R as -> by (field; lra).
  split.
  - rewrite <- Rinv_1 at 1. apply Rinv_le_contravar; lra.
  - replace (101 / 100)%R with (/ (100 / 101))%R by lra.
    apply Rinv_lt_contravar; lra.
Qed.

Lemma a_i_30_tenth (i : Z) : 0 ≤ i ≤ 2 → derive.a_i (derive.a1 4 24) i = 1.
Proof.
  intros Hi. pose proof a1_30_tenth as Ha. unfold derive.a_i, libm.pow.
  set (a := derive.a1 4 24) in *. clearbody a.
  assert (i = 0 ∨ i = 1 ∨ i = 2) as [-> | [-> | ->]] by lia; simpl powerRZ;
    rewrite (round_eq _ 1); (done || lra).
Qed.

(** The constants for [capacity = 20] and [delta = 0.5]. *)
Lemma max_inserts_20_half : derive.max_inserts 20 (1 / 2) = 10.
Proof.
  unfold derive.max_inserts. rewrite (int_floor_eq _ 10); [done | lra..].
Qed.

Lemma special_size_20_half : derive.special_size 20 (1 / 2) = 7.
Proof.
  unfold derive.special_size. rewrite (int_floor_eq _ 7); [done | lra..].
Qed.

Lemma a1_20_half : (3 / 2 < derive.a1 6 14 < 153 / 100)%R.
Proof.
  unfold derive.a1, libm.pow. rewrite bool_decide_eq_true_2 by lia.
  change (powerRZ 0.75 14) with (0.75 ^ 14)%R.
  assert (0 < 0.75 ^ 14 < / 55)%R as Hp by lra.
  set (p := (0.75 ^ 14)%R) in *. clearbody p.
  assert (6 / (4 * (1 - p)) = / (2 * (1 - p) / 3))%R as -> by (field; lra).
  split.
  - replace (3 / 2)%R with (/ (2 / 3))%R by lra.
    apply Rinv_lt_contravar; lra.
  - replace (153 / 100)%R with (/ (100 / 153))%R by lra.
    apply Rinv_lt_contravar; lra.
Qed.

Lemma a_0_20_half : derive.a_i (derive.a1 6 14) 0 = 2.
Proof.
  pose proof a1_20_half as Ha. unfold derive.a_i, libm.pow.
  set (a := derive.a1 6 14) in *. clearbody a. simpl powerRZ.
  rewrite (round_eq _ 2); (done || lra).
Qed.

Lemma a_i_20_half (i : Z) : 1 ≤ i ≤ 4 → derive.a_i (derive.a1 6 14) i = 1.
Proof.
  intros Hi. pose proof a1_20_half as Ha. unfold derive.a_i, libm.pow.
  set (a := derive.a1 6 14) in *. clearbody a.
  assert (i = 1 ∨ i = 2 ∨ i = 3 ∨ i = 4) as [-> | [-> | [-> | ->]]] by lia;
    simpl powerRZ.
  - rewrite (round_eq _ 1); (done || lra).
  - rewrite (round_eq _ 1); (done || lra).
  - rewrite (round_eq _ 1); (done || lra).
  - rewrite (round_eq _ 0); (done || lra).
Qed.
End numbers.

(** ** Lists *)

Section lists.
Context {A : Type}.
Implicit Types l : list A.

Lemma getitem_lookup l (i : Z) (x : A) :
  0 ≤ i → l !! Z.to_nat i = Some x → getitem l i = inr x.
Proof.
  intros Hi Hx. unfold getitem, norm_index.
  rewrite (bool_decide_eq_false_2 (i < 0)) by lia.
  rewrite bool_decide_eq_true_2 by lia. by rewrite Hx.
Qed.

Lemma setitem_insert l (i : Z) (x : A) :
  0 ≤ i < len l → setitem l i x = inr (<[Z.to_nat i := x]> l).
Proof.
  intros Hi. unfold setitem, norm_index.
  rewrite (bool_decide_eq_false_2 (i < 0)) by lia.
  by rewrite !bool_decide_eq_true_2 by lia.
Qed.

Lemma lookup_len l (i : Z) (x : A) :
  0 ≤ i → l !! Z.to_nat i = Some x → 0 ≤ i < len l.
Proof. intros Hi Hx%lookup_lt_Some. unfold len. lia. Qed.

Lemma len_lookup l (i : Z) :
  0 ≤ i < len l → is_Some (l !! Z.to_nat i).
Proof. intros Hi. apply lookup_lt_is_Some. unfold len in Hi. lia. Qed.

Lemma elem_of_range (x start stop : Z) :
  x ∈ range start stop ↔ start ≤ x < stop.
Proof. unfold range. rewrite elem_of_seqZ. lia. Qed.
End lists.

(** ** The monad *)

Ltac msimpl :=
  cbv [mbind M_bind mret M_ret self lift update raise] in *.

Section theory.
Context {object : Type} `{EqDecision object}.
Context (PyNone : object) (hash : object → Z).

Abbreviation Entry_ := (_Entry object).
Abbreviation Table_ := (FunnelHashTable object).
Abbreviation M := (M object).
Abbreviation Entry0 := (Entry0 PyNone).
Abbreviation _hash := (_hash hash).
Abbreviation bucket_range := (bucket_range hash).
Abbreviation special_index := (special_index hash).
Abbreviation bucket_start := (bucket_start hash).
Abbreviation bucket_slots := (bucket_slots hash).
Abbreviation level_path := (level_path hash).
Abbreviation special_slot := (special_slot hash).
Abbreviation special_path := (special_path hash).
Abbreviation path := (path hash).
Abbreviation delete_at := (delete_at PyNone).
Abbreviation on_path := (on_path hash).
Abbreviation insert := (insert hash).
Abbreviation get := (get hash).
Abbreviation __contains__ := (__contains__ hash).
Abbreviation __getitem__ := (__getitem__ hash).
Abbreviation __delitem__ := (__delitem__ PyNone hash).
Abbreviation pop := (pop PyNone hash).
Abbreviation delete_all := (delete_all PyNone hash).
Abbreviation clear := (clear PyNone hash).
Abbreviation insert_all := (insert_all hash).
Abbreviation build_levels := (build_levels PyNone).
Abbreviation __init__ := (__init__ PyNone hash).
Abbreviation exec := (exec PyNone hash).
Abbreviation outcome := (outcome PyNone hash).
Abbreviation exec_all := (exec_all PyNone hash).
Abbreviation reachable := (reachable PyNone hash).
Abbreviation free_default := (free_default PyNone).
Abbreviation compact := (compact hash).
Abbreviation tidy := (tidy hash).

Implicit Types (t : Table_) (k v : object) (s : slot) (e : Entry_).

(** *** Finding the first entry that passes a test *)

Lemma find_first_app {A} (f : A → option Entry_) test (xs ys : list A) :
  find_first f test (xs ++ ys) =
  match find_first f test xs with
  | Some r => Some r
  | None => find_first f test ys
  end.
Proof.
  induction xs as [|x xs IH]; [done |]. simpl.
  destruct (f x) as [e|]; [destruct (test e) |]; done.
Qed.

Lemma find_first_fmap {A A'} (g : A → A') (f : A' → option Entry_) test
    (xs : list A) :
  find_first f test (g <$> xs) =
  prod_map g Datatypes.id <$> find_first (f ∘ g) test xs.
Proof.
  induction xs as [|x xs IH]; [done |]. simpl.
  destruct (f (g x)) as [e|]; [destruct (test e) |]; done.
Qed.

Lemma find_first_Some {A} (f : A → option Entry_) test (xs : list A) x e :
  find_first f test xs = Some (x, e) →
  x ∈ xs ∧ f x = Some e ∧ test e = true.
Proof.
  induction xs as [|y xs IH]; [done |]. simpl.
  destruct (f y) as [e'|] eqn:Hy; [destruct (test e') eqn:Ht |].
  - intros [= -> ->]. split; [left | done].
  - intros [? ?]%IH. split; [by right | done].
  - intros [? ?]%IH. split; [by right | done].
Qed.

Lemma find_first_None {A} (f : A → option Entry_) test (xs : list A) x e :
  find_first f test xs = None → x ∈ xs → f x = Some e → test e = false.
Proof.
  induction xs as [|y xs IH]; [by intros _ ?%elem_of_nil |]. simpl.
  intros Hfind [-> | Hin]%elem_of_cons Hx.
  - rewrite Hx in Hfind. by destruct (test e).
  - apply IH; [| done..].
    destruct (f y) as [e'|]; [destruct (test e') |]; done.
Qed.

Lemma find_first_ext {A} (f f' : A → option Entry_) test (xs : list A) :
  (∀ x, x ∈ xs → f' x = f x) →
  find_first f' test xs = find_first f test xs.
Proof.
  induction xs as [|y xs IH]; [done |]. intros Hext. simpl.
  rewrite Hext by left. rewrite IH; [done |].
  intros x Hx. apply Hext. by right.
Qed.

(** A loop that reads an entry per element and returns at the first
    entry that passes the test stops at the first such element. *)
Lemma for_each_find {A B} (f : A → option Entry_) (read : A → M Entry_)
    (test : Entry_ → bool) (hit : A → Entry_ → M (option B))
    (xs : list A) (t : Table_) :
  (∀ x, x ∈ xs → ∃ e, f x = Some e ∧ read x t = (inr e, t)) →
  (∀ x e, (hit x e t).1 ≠ inr None) →
  for_each xs (λ x, e ← read x; if test e then hit x e else mret None) t =
  match find_first f test xs with
  | Some (x, e) => hit x e t
  | None => (inr None, t)
  end.
Proof.
  intros Hread Hhit. induction xs as [|x xs IH]; [done |].
  destruct (Hread x) as (e & Hf & Hr); [left |].
  simpl. rewrite Hf. msimpl. rewrite Hr.
  destruct (test e).
  - specialize (Hhit x e). destruct (hit x e t) as [[err | [b |]] t']; done.
  - apply IH. intros y Hy. apply Hread. by right.
Qed.
(** *** Reading and writing slots *)

Lemma entry_at_level t i idx e :
  entry_at t (LevelSlot i idx) = Some e ↔
  0 ≤ i ∧ 0 ≤ idx ∧
  ∃ level, levels t !! Z.to_nat i = Some level ∧ level !! Z.to_nat idx = Some e.
Proof.
  simpl. repeat case_bool_decide; simpl.
  - destruct (levels t !! Z.to_nat i) as [level|]; simpl; naive_solver.
  - naive_solver.
  - naive_solver.
  - naive_solver.
Qed.

Lemma entry_at_special t idx e :
  entry_at t (SpecialSlot idx) = Some e ↔
  0 ≤ idx ∧ special_array t !! Z.to_nat idx = Some e.
Proof. simpl. case_bool_decide; naive_solver. Qed.

Lemma level_entry_valid t i idx e :
  entry_at t (LevelSlot i idx) = Some e → level_entry i idx t = (inr e, t).
Proof.
  intros (Hi & Hidx & level & Hl & He)%entry_at_level.
  unfold level_entry. msimpl.
  rewrite (getitem_lookup _ _ _ Hi Hl).
  by rewrite (getitem_lookup _ _ _ Hidx He).
Qed.

Lemma special_entry_valid t idx e :
  entry_at t (SpecialSlot idx) = Some e → special_entry idx t = (inr e, t).
Proof.
  intros (Hidx & He)%entry_at_special.
  unfold special_entry. msimpl.
  by rewrite (getitem_lookup _ _ _ Hidx He).
Qed.

Lemma set_level_entry_valid t i idx e e' :
  entry_at t (LevelSlot i idx) = Some e →
  set_level_entry i idx e' t = (inr (), put_entry (LevelSlot i idx) e' t).
Proof.
  intros (Hi & Hidx & level & Hl & He)%entry_at_level.
  unfold set_level_entry. msimpl. simpl.
  rewrite (getitem_lookup _ _ _ Hi Hl).
  rewrite setitem_insert by eauto using lookup_len.
  rewrite setitem_insert by eauto using lookup_len.
  by rewrite Hl.
Qed.

Lemma set_special_entry_valid t idx e e' :
  entry_at t (SpecialSlot idx) = Some e →
  set_special_entry idx e' t = (inr (), put_entry (SpecialSlot idx) e' t).
Proof.
  intros (Hidx & He)%entry_at_special.
  unfold set_special_entry. msimpl. simpl.
  by rewrite setitem_insert by eauto using lookup_len.
Qed.

(** Reading back after a write. *)
Lemma entry_at_put_eq t s e e' :
  entry_at t s = Some e → entry_at (put_entry s e' t) s = Some e'.
Proof.
  destruct s as [i idx | idx].
  - intros (Hi & Hidx & level & Hl & He)%entry_at_level.
    apply entry_at_level. do 2 (split; [done |]).
    unfold put_entry. rewrite Hl. simpl.
    exists (<[Z.to_nat idx := e']> level). split.
    + apply list_lookup_insert_eq. by eapply lookup_lt_Some.
    + apply list_lookup_insert_eq. by eapply lookup_lt_Some.
  - intros (Hidx & He)%entry_at_special.
    apply entry_at_special. split; [done |]. simpl.
    apply list_lookup_insert_eq. by eapply lookup_lt_Some.
Qed.

Lemma entry_at_put_ne t s s' e e' :
  entry_at t s = Some e → s ≠ s' →
  entry_at (put_entry s e' t) s' = entry_at t s'.
Proof.
  destruct s as [i idx | idx]; destruct s' as [i' idx' | idx'].
  - intros (Hi & Hidx & level & Hl & He)%entry_at_level Hne.
    unfold put_entry. rewrite Hl. simpl.
    repeat case_bool_decide; simpl; try done.
    destruct (decide (i = i')) as [<- | Hii].
    + rewrite list_lookup_insert_eq by (by eapply lookup_lt_Some).
      rewrite Hl. simpl. apply list_lookup_insert_ne.
      intros Heq. apply Hne. f_equal. lia.
    + rewrite list_lookup_insert_ne by lia. done.
  - intros (Hi & Hidx & level & Hl & He)%entry_at_level Hne.
    unfold put_entry. rewrite Hl. done.
  - done.
  - intros (Hidx & He)%entry_at_special Hne. simpl.
    case_bool_decide; [| done].
    apply list_lookup_insert_ne. intros Heq. apply Hne. f_equal. lia.
Qed.

Lemma entry_at_put t s s' e e' :
  entry_at t s = Some e →
  entry_at (put_entry s e' t) s' =
  if decide (s = s') then Some e' else entry_at t s'.
Proof.
  intros He. destruct (decide (s = s')) as [<- | Hne].
  - by eapply entry_at_put_eq.
  - by eapply entry_at_put_ne.
Qed.

(** *** The indices that the scans compute *)

Lemma hash_bounds k salt : 0 ≤ _hash k salt < 2 ^ 31.
Proof.
  unfold _hash. cbv zeta.
  change 0x7FFFFFFF with (Z.ones 31).
  rewrite Z.land_ones by lia. apply Z.mod_pos_bound. lia.
Qed.

Lemma level_lookups t (i : Z) :
  well_formed t → 0 ≤ i < len (levels t) →
  ∃ salt count level,
    level_salts t !! Z.to_nat i = Some salt ∧
    level_bucket_counts t !! Z.to_nat i = Some count ∧
    levels t !! Z.to_nat i = Some level ∧
    1 ≤ count ∧ len level = count * beta t.
Proof.
  intros Hwf Hi.
  destruct (len_lookup (levels t) i Hi) as [level Hl].
  destruct (len_lookup (level_salts t) i) as [salt Hs].
  { unfold len in *. rewrite (wf_salts _ Hwf). lia. }
  destruct (len_lookup (level_bucket_counts t) i) as [count Hc].
  { unfold len in *. rewrite (wf_counts _ Hwf). lia. }
  exists salt, count, level. repeat split; try done.
  all: by eapply (wf_levels _ Hwf).
Qed.

Lemma bucket_start_bounds t k (i : Z) count :
  well_formed t → level_bucket_counts t !! Z.to_nat i = Some count →
  1 ≤ count →
  0 ≤ bucket_start t k i ∧ bucket_start t k i + beta t ≤ count * beta t.
Proof.
  intros Hwf Hc Hcount. unfold bucket_start. cbv zeta.
  rewrite (list_lookup_total_correct _ _ _ Hc).
  pose proof (wf_beta _ Hwf).
  pose proof (Z.mod_pos_bound
    (_hash k (level_salts t !!! Z.to_nat i)) count ltac:(lia)).
  nia.
Qed.

Lemma bucket_range_wf t k (i : Z) :
  well_formed t → 0 ≤ i < len (levels t) →
  bucket_range k i t =
  (inr (range (bucket_start t k i) (bucket_start t k i + beta t)), t).
Proof.
  intros Hwf Hi.
  destruct (level_lookups t i Hwf Hi) as (salt & count & level & Hs & Hc & Hl & Hcount & Hlen).
  unfold bucket_range, _hash_level, bucket_start.
  msimpl.
  rewrite (getitem_lookup _ _ _ (proj1 Hi) Hs).
  rewrite (getitem_lookup _ _ _ (proj1 Hi) Hc).
  unfold py_mod. rewrite bool_decide_eq_false_2 by lia.
  rewrite (list_lookup_total_correct _ _ _ Hs).
  by rewrite (list_lookup_total_correct _ _ _ Hc).
Qed.

Lemma level_slot_valid t k (i idx : Z) :
  well_formed t → 0 ≤ i < len (levels t) →
  bucket_start t k i ≤ idx < bucket_start t k i + beta t →
  ∃ level e, levels t !! Z.to_nat i = Some level ∧ 0 ≤ idx < len level ∧
             entry_at t (LevelSlot i idx) = Some e.
Proof.
  intros Hwf Hi Hidx.
  destruct (level_lookups t i Hwf Hi) as (salt & count & level & Hs & Hc & Hl & Hcount & Hlen).
  pose proof (bucket_start_bounds t k i count Hwf Hc Hcount).
  assert (0 ≤ idx < len level) as Hin by lia.
  destruct (len_lookup level idx Hin) as [e He].
  exists level, e. split; [done |]. split; [done |].
  apply entry_at_level. naive_solver lia.
Qed.

Lemma special_index_wf t k (j : Z) :
  well_formed t →
  ∃ idx e, special_index k (len (special_array t)) j t = (inr idx, t) ∧
           special_slot t k j = SpecialSlot idx ∧
           0 ≤ idx < len (special_array t) ∧
           entry_at t (SpecialSlot idx) = Some e.
Proof.
  intros Hwf. pose proof (wf_special _ Hwf) as Hsize.
  set (idx := wrap_int (_hash k (special_salt t) + j) `mod` len (special_array t)).
  assert (0 ≤ idx < len (special_array t)) as Hidx
    by (apply Z.mod_pos_bound; lia).
  destruct (len_lookup _ idx Hidx) as [e He].
  exists idx, e. repeat split; try lia.
  - unfold special_index, _hash_special, py_mod. msimpl.
    by rewrite bool_decide_eq_false_2 by lia.
  - apply entry_at_special. split; [lia | done].
Qed.

Lemma level_path_elem t k s :
  s ∈ level_path t k ↔
  ∃ i idx, s = LevelSlot i idx ∧ 0 ≤ i < len (levels t) ∧
           bucket_start t k i ≤ idx < bucket_start t k i + beta t.
Proof.
  unfold level_path. rewrite list_elem_of_join. split.
  - intros (ss & Hs & Hss). apply list_elem_of_fmap in Hss as (i & -> & Hi).
    apply list_elem_of_fmap in Hs as (idx & -> & Hidx).
    apply elem_of_range in Hi, Hidx. exists i, idx. split; [done | lia].
  - intros (i & idx & -> & Hi & Hidx). exists (bucket_slots t k i). split.
    + apply list_elem_of_fmap. exists idx. split; [done |].
      by apply elem_of_range.
    + apply list_elem_of_fmap. exists i. split; [done |].
      apply elem_of_range. lia.
Qed.

Lemma special_path_elem t k s :
  s ∈ special_path t k ↔
  ∃ j, s = special_slot t k j ∧ 0 ≤ j < probe_limit t.
Proof.
  unfold special_path. rewrite list_elem_of_fmap.
  by setoid_rewrite elem_of_range.
Qed.

Lemma path_valid t k s :
  well_formed t → s ∈ path t k → is_Some (entry_at t s).
Proof.
  intros Hwf [Hs | Hs]%elem_of_app.
  - apply level_path_elem in Hs as (i & idx & -> & Hi & Hidx).
    destruct (level_slot_valid t k i idx Hwf Hi Hidx) as (? & e & ? & ? & ?).
    by exists e.
  - apply special_path_elem in Hs as (j & -> & _).
    destruct (special_index_wf t k j Hwf) as (idx & e & _ & -> & _ & ?).
    by exists e.
Qed.

(** *** The scans *)

Lemma bind_ok {A B} (m : M A) (f : A → M B) t x t' :
  m t = (inr x, t') → (m ≫= f) t = f x t'.
Proof. intros Hm. msimpl. by rewrite Hm. Qed.

Lemma bind_self {B} (f : Table_ → M B) t : (self ≫= f) t = f t t.
Proof. done. Qed.

Lemma bind_eq {A B} (m : M A) (f : A → M B) t r :
  m t = r →
  (m ≫= f) t =
  match r with
  | (inr x, t') => f x t'
  | (inl err, t') => (inl err, t')
  end.
Proof. intros <-. done. Qed.

Lemma scan_levels_find {B} (test : Entry_ → bool)
    (hit : Z → Z → Entry_ → M (option B)) t k (indices : list Z) :
  well_formed t →
  (∀ i, i ∈ indices → 0 ≤ i < len (levels t)) →
  (∀ i idx e, (hit i idx e t).1 ≠ inr None) →
  for_each indices (λ i,
    idxs ← bucket_range k i;
    for_each idxs (λ idx,
      e ← level_entry i idx;
      if test e then hit i idx e else mret None)) t =
  match find_slot test t (mjoin (bucket_slots t k <$> indices)) with
  | Some (LevelSlot i idx, e) => hit i idx e t
  | _ => (inr None, t)
  end.
Proof.
  intros Hwf Hin Hhit. unfold find_slot.
  induction indices as [|i indices IH]; [done |].
  rewrite fmap_cons. change (mjoin (?x :: ?xs)) with (x ++ mjoin xs).
  rewrite find_first_app. unfold bucket_slots at 1.
  rewrite find_first_fmap.
  assert (0 ≤ i < len (levels t)) as Hi by (apply Hin; left).
  cbn [for_each].
  erewrite bind_eq; last first.
  { erewrite bind_ok by (by apply bucket_range_wf).
    apply (for_each_find (λ idx, entry_at t (LevelSlot i idx))).
    - intros idx Hidx%elem_of_range.
      destruct (level_slot_valid t k i idx Hwf Hi Hidx) as (? & e & ? & ? & He).
      exists e. split; [done |]. by apply level_entry_valid.
    - intros idx e. apply Hhit. }
  unfold compose.
  destruct (find_first _ test (range _ _)) as [[idx e]|]; simpl.
  - specialize (Hhit i idx e).
    destruct (hit i idx e t) as [[err | [b |]] t']; done.
  - apply IH. intros j Hj. apply Hin. by right.
Qed.

Lemma scan_special_find {B} (test : Entry_ → bool)
    (hit : Z → Entry_ → M (option B)) t k (js : list Z) :
  well_formed t →
  (∀ idx e, (hit idx e t).1 ≠ inr None) →
  for_each js (λ j,
    idx ← special_index k (len (special_array t)) j;
    e ← special_entry idx;
    if test e then hit idx e else mret None) t =
  match find_slot test t (special_slot t k <$> js) with
  | Some (SpecialSlot idx, e) => hit idx e t
  | _ => (inr None, t)
  end.
Proof.
  intros Hwf Hhit. unfold find_slot.
  induction js as [|j js IH]; [done |].
  destruct (special_index_wf t k j Hwf) as (idx & e & Hidx & Hs & _ & He).
  cbn [for_each fmap list_fmap find_first]. rewrite Hs, He.
  erewrite bind_eq; last first.
  { erewrite bind_ok by done.
    erewrite bind_ok by (by apply special_entry_valid). done. }
  destruct (test e).
  - specialize (Hhit idx e).
    destruct (hit idx e t) as [[err | [b |]] t']; done.
  - apply IH.
Qed.

(** *** The methods in terms of the probe path *)

Lemma level_path_slots t k s e test :
  find_slot test t (level_path t k) = Some (s, e) →
  ∃ i idx, s = LevelSlot i idx ∧ entry_at t s = Some e ∧ test e = true.
Proof.
  intros (Hs & He & Ht)%find_first_Some.
  apply level_path_elem in Hs as (i & idx & -> & _). by exists i, idx.
Qed.

Lemma special_path_slots t k s e test :
  find_slot test t (special_path t k) = Some (s, e) →
  ∃ idx, s = SpecialSlot idx ∧ entry_at t s = Some e ∧ test e = true.
Proof.
  intros (Hs & He & Ht)%find_first_Some.
  apply special_path_elem in Hs as (j & -> & _). by eexists.
Qed.

Lemma find_slot_path test t k :
  find_slot test t (path t k) =
  match find_slot test t (level_path t k) with
  | Some r => Some r
  | None => find_slot test t (special_path t k)
  end.
Proof. apply find_first_app. Qed.

Lemma insert_spec t k v :
  well_formed t →
  insert k v t =
  if bool_decide (num_inserts t >= max_inserts t)
  then (inl (RuntimeError "Hash table is full."), t)
  else
    match find_slot (free_or_key k) t (path t k) with
    | Some (s, _) => (inr (), insert_at s k v t)
    | None =>
        (inl (RuntimeError "Special array insertion failed; table is full."), t)
    end.
Proof.
  intros Hwf. unfold insert. rewrite bind_self.
  case_bool_decide; [done |].
  rewrite find_slot_path.
  erewrite bind_eq; last first.
  { apply (scan_levels_find (free_or_key k) (λ i idx _,
      set_level_entry i idx (Entry k v true);;
      update (λ t, set_num_inserts (num_inserts t + 1) t);;
      mret (Some ()))); [done | |].
    - by intros i Hi%elem_of_range.
    - intros i idx e. msimpl.
      by destruct (set_level_entry i idx (Entry k v true) t) as [[] ?]. }
  fold (level_path t k).
  destruct (find_slot _ t (level_path t k)) as [[s e]|] eqn:Hfind.
  { apply level_path_slots in Hfind as (i & idx & -> & He & _).
    erewrite bind_eq by (by eapply set_level_entry_valid). done. }
  rewrite bind_self.
  erewrite bind_eq; last first.
  { apply (scan_special_find (free_or_key k) (λ idx _,
      set_special_entry idx (Entry k v true);;
      update (λ t, set_special_occupancy (special_occupancy t + 1) t);;
      update (λ t, set_num_inserts (num_inserts t + 1) t);;
      mret (Some ()))); [done |].
    intros idx e. msimpl.
    by destruct (set_special_entry idx (Entry k v true) t) as [[] ?]. }
  fold (special_path t k).
  destruct (find_slot _ t (special_path t k)) as [[s e]|] eqn:Hfind'; [| done].
  apply special_path_slots in Hfind' as (idx & -> & He & _).
  erewrite bind_eq by (by eapply set_special_entry_valid). done.
Qed.

Lemma get_spec t k d :
  well_formed t →
  get k d t =
  (match find_slot (holds_key k) t (path t k) with
   | Some (_, e) => inr (value e)
   | None =>
       match d with
       | None => inl KeyError
       | Some x => inr x
       end
   end, t).
Proof.
  intros Hwf. unfold get. rewrite bind_self.
  rewrite find_slot_path.
  erewrite bind_eq; last first.
  { apply (scan_levels_find (holds_key k) (λ _ _ e, mret (Some (value e))));
      [done | | done].
    by intros i Hi%elem_of_range. }
  fold (level_path t k).
  destruct (find_slot _ t (level_path t k)) as [[s e]|] eqn:Hfind.
  { by apply level_path_slots in Hfind as (i & idx & -> & He & _). }
  erewrite bind_eq; last first.
  { by apply (scan_special_find (holds_key k) (λ _ e, mret (Some (value e)))). }
  fold (special_path t k).
  destruct (find_slot _ t (special_path t k)) as [[s e]|] eqn:Hfind'.
  { by apply special_path_slots in Hfind' as (idx & -> & He & _). }
  by destruct d.
Qed.

Lemma delitem_spec t k :
  well_formed t →
  __delitem__ k t =
  match find_slot (holds_key k) t (path t k) with
  | Some (s, _) => (inr (), delete_at s t)
  | None => (inl KeyError, t)
  end.
Proof.
  intros Hwf. unfold __delitem__. rewrite bind_self.
  rewrite find_slot_path.
  erewrite bind_eq; last first.
  { apply (scan_levels_find (holds_key k) (λ i idx _,
      set_level_entry i idx Entry0;;
      update (λ t, set_num_inserts (num_inserts t - 1) t);;
      mret (Some ()))); [done | |].
    - by intros i Hi%elem_of_range.
    - intros i idx e. msimpl.
      by destruct (set_level_entry i idx Entry0 t) as [[] ?]. }
  fold (level_path t k).
  destruct (find_slot _ t (level_path t k)) as [[s e]|] eqn:Hfind.
  { apply level_path_slots in Hfind as (i & idx & -> & He & _).
    erewrite bind_eq by (by eapply set_level_entry_valid). done. }
  rewrite bind_self.
  erewrite bind_eq; last first.
  { apply (scan_special_find (holds_key k) (λ idx _,
      set_special_entry idx Entry0;;
      update (λ t, set_special_occupancy (special_occupancy t - 1) t);;
      update (λ t, set_num_inserts (num_inserts t - 1) t);;
      mret (Some ()))); [done |].
    intros idx e. msimpl.
    by destruct (set_special_entry idx Entry0 t) as [[] ?]. }
  fold (special_path t k).
  destruct (find_slot _ t (special_path t k)) as [[s e]|] eqn:Hfind'; [| done].
  apply special_path_slots in Hfind' as (idx & -> & He & _).
  erewrite bind_eq by (by eapply set_special_entry_valid). done.
Qed.

Lemma contains_spec t k :
  well_formed t →
  __contains__ k t =
  (inr (bool_decide (is_Some (find_slot (holds_key k) t (path t k)))), t).
Proof.
  intros Hwf. unfold __contains__, try_except_KeyError.
  erewrite bind_eq by (by apply get_spec).
  by destruct (find_slot _ t (path t k)) as [[s e]|].
Qed.

Lemma pop_spec t k d :
  well_formed t →
  pop k d t =
  match find_slot (holds_key k) t (path t k) with
  | Some (s, e) => (inr (value e), delete_at s t)
  | None =>
      (match d with
       | None => inl KeyError
       | Some x => inr x
       end, t)
  end.
Proof.
  intros Hwf. unfold pop, try_except_KeyError, __getitem__.
  erewrite bind_eq by (by apply get_spec).
  destruct (find_slot _ t (path t k)) as [[s e]|] eqn:Hfind.
  - erewrite bind_eq by (by apply delitem_spec). by rewrite Hfind.
  - by destruct d.
Qed.

(** *** Construction *)

Lemma build_levels_spec beta a1 random n indices remaining counts salts ls :
  build_levels beta a1 random n indices remaining = (counts, salts, ls) →
  length salts = length counts ∧ length ls = length counts ∧
  foldr Z.add 0 counts ≤ Z.max 0 remaining ∧
  (∀ i count level, counts !! i = Some count → ls !! i = Some level →
     1 ≤ count ∧ level = replicate (Z.to_nat (count * beta)) Entry0).
Proof.
  revert n remaining counts salts ls.
  induction indices as [|i indices IH]; intros n remaining counts salts ls.
  { intros [= <- <- <-]. simpl. repeat split; [lia | done..]. }
  simpl.
  destruct (bool_decide (remaining ≤ 0) || bool_decide (derive.a_i a1 i ≤ 0))
    eqn:Hbreak.
  { intros [= <- <- <-]. simpl. repeat split; [lia | done..]. }
  apply orb_false_elim in Hbreak as [Hrem Ha%bool_decide_eq_false].
  apply bool_decide_eq_false in Hrem.
  set (a := Z.min (derive.a_i a1 i) remaining).
  destruct (build_levels beta a1 random (S n) indices (remaining - a))
    as [[counts' salts'] ls'] eqn:Hrec.
  intros [= <- <- <-].
  destruct (IH _ _ _ _ _ Hrec) as (Hs & Hl & Hsum & Hlev).
  simpl. repeat split; [lia | lia | lia | |].
  - destruct i0 as [|i0]; simpl in *; [| by eapply Hlev].
    simplify_eq. lia.
  - destruct i0 as [|i0]; simpl in *; [| by eapply Hlev].
    by simplify_eq.
Qed.

Lemma build_levels_cons beta a1 random n i indices remaining :
  0 < remaining →
  build_levels beta a1 random n (i :: indices) remaining =
  let a := Z.min (derive.a_i a1 i) remaining in
  let '(counts, salts, ls) :=
    build_levels beta a1 random (S n) indices (remaining - a) in
  (a :: counts, random n :: salts,
   replicate (Z.to_nat (a * beta)) Entry0 :: ls).
Proof.
  intros Hrem. cbn [build_levels]. pose proof (a_i_pos a1 i).
  by rewrite !bool_decide_eq_false_2 by lia.
Qed.

Lemma build_levels_break beta a1 random n indices remaining :
  remaining ≤ 0 →
  build_levels beta a1 random n indices remaining = ([], [], []).
Proof.
  intros Hrem. destruct indices; [done |]. cbn [build_levels].
  by rewrite (bool_decide_eq_true_2 (remaining ≤ 0)) by lia.
Qed.

Lemma init_data capacity data delta random t :
  __init__ capacity (Some data) delta random = inr t →
  ∃ t0, __init__ capacity None delta random = inr t0 ∧
        insert_all data t0 = (inr (), t).
Proof.
  unfold __init__.
  destruct (negb (fits_int capacity)); [done |].
  case_bool_decide; [done |].
  destruct (Rlt_dec 0 delta); [| done].
  destruct (Rlt_dec delta 1); [| done].
  destruct (py_floordiv _ _) as [| total_buckets]; [done |].
  destruct (build_levels _ _ _ _ _ _) as [[counts salts] ls].
  destruct (insert_all data _) as [[err | []] t'] eqn:Hins; [done |].
  intros [= <-]. eauto.
Qed.

Lemma init_fresh capacity delta random t :
  __init__ capacity None delta random = inr t →
  fits_int capacity = true ∧ 1 ≤ capacity ∧ (0 < delta < 1)%R ∧
  ∃ counts salts ls,
    build_levels (derive.beta delta)
      (derive.a1
         (derive.primary_size capacity delta `div` derive.beta delta)
         (derive.alpha delta))
      random 0 (range 0 (derive.alpha delta))
      (derive.primary_size capacity delta `div` derive.beta delta)
    = (counts, salts, ls) ∧
    t = Table capacity 0 0 (derive.max_inserts capacity delta)
          (derive.alpha delta) (derive.beta delta)
          (derive.special_size capacity delta)
          (derive.primary_size capacity delta)
          (random (length salts)) delta salts counts ls
          (replicate (Z.to_nat (derive.special_size capacity delta)) Entry0).
Proof.
  unfold __init__.
  destruct (fits_int capacity); [| done]. simpl.
  case_bool_decide; [done |].
  destruct (Rlt_dec 0 delta); [| done].
  destruct (Rlt_dec delta 1); [| done].
  unfold py_floordiv. case_bool_decide; [done |].
  fold (derive.primary_size capacity delta).
  destruct (build_levels _ _ _ _ _ _) as [[counts salts] ls] eqn:Hb.
  intros [= <-]. repeat split; [lia | done..| ]. eauto 10.
Qed.

Lemma init_total capacity delta random :
  1 ≤ capacity < 2 ^ 31 → (0 < delta < 1)%R →
  ∃ t, __init__ capacity None delta random = inr t.
Proof.
  intros Hc Hd. unfold __init__, fits_int.
  rewrite !bool_decide_eq_true_2 by lia. simpl.
  rewrite bool_decide_eq_false_2 by lia.
  destruct (Rlt_dec 0 delta); [| lra].
  destruct (Rlt_dec delta 1); [| lra].
  unfold py_floordiv. pose proof (beta_pos delta Hd).
  rewrite bool_decide_eq_false_2 by lia.
  destruct (build_levels _ _ _ _ _ _) as [[counts salts] ls]. eauto.
Qed.

Lemma init_fresh_wf capacity delta random t :
  __init__ capacity None delta random = inr t → well_formed t.
Proof.
  intros (_ & Hc & Hd & counts & salts & ls & Hb & ->)%init_fresh.
  apply build_levels_spec in Hb as (Hs & Hl & _ & Hlev).
  pose proof (beta_pos delta Hd).
  pose proof (special_size_bounds capacity delta Hc Hd).
  split; simpl; [congruence | congruence | lia | | |].
  - intros i count level Hcount Hlevel.
    destruct (Hlev i count level Hcount Hlevel) as [? ->].
    split; [done |]. unfold len. rewrite length_replicate. nia.
  - unfold len. rewrite length_replicate. lia.
  - unfold len. rewrite length_replicate. lia.
Qed.



(** *** The layout never changes *)

Lemma same_layout_refl t : same_layout t t.
Proof. by repeat split. Qed.

Lemma same_layout_trans t1 t2 t3 :
  same_layout t1 t2 → same_layout t2 t3 → same_layout t1 t3.
Proof. unfold same_layout. intros ? ?. intuition congruence. Qed.

Lemma put_entry_layout t s e : same_layout t (put_entry s e t).
Proof.
  destruct s as [i idx | idx]; simpl.
  - destruct (levels t !! Z.to_nat i) as [level|] eqn:Hl;
      [| apply same_layout_refl].
    repeat split; simpl.
    rewrite list_fmap_insert, length_insert.
    apply list_insert_id. by rewrite list_lookup_fmap, Hl.
  - repeat split; simpl. apply length_insert.
Qed.

Lemma insert_at_layout t s k v : same_layout t (insert_at s k v t).
Proof.
  unfold insert_at. cbv zeta.
  pose proof (put_entry_layout t s (Entry k v true)) as Hl.
  destruct s; exact Hl.
Qed.

Lemma delete_at_layout t s : same_layout t (delete_at s t).
Proof.
  unfold delete_at. cbv zeta.
  pose proof (put_entry_layout t s Entry0) as Hl.
  destruct s; exact Hl.
Qed.

Lemma same_layout_levels_length t t' :
  same_layout t t' → length (levels t') = length (levels t).
Proof.
  intros (_ & _ & _ & _ & _ & _ & _ & Hl & _).
  by rewrite <- (length_fmap length (levels t')), Hl, length_fmap.
Qed.

Lemma wf_layout t t' : same_layout t t' → well_formed t → well_formed t'.
Proof.
  intros Hsame Hwf.
  pose proof (same_layout_levels_length t t' Hsame) as Hlen.
  destruct Hsame as (Hsz & Hcap & Hmax & Hbeta & Hss & Hsalts & Hcounts & Hl & Hsp).
  destruct Hwf as [H1 H2 H3 H4 H5 H6].
  split; [congruence | congruence | congruence | | |].
  - intros i count level' Hc Hlev. rewrite Hcounts in Hc.
    assert ((length <$> levels t) !! i = Some (length level')) as Hlk
      by (by rewrite <- Hl, list_lookup_fmap, Hlev).
    rewrite list_lookup_fmap in Hlk.
    destruct (levels t !! i) as [level|] eqn:Hlevel; [| done].
    injection Hlk as Hlk.
    destruct (H4 i count level Hc Hlevel) as [? Hll].
    split; [done |]. unfold len in *. rewrite <- Hlk, Hbeta. done.
  - unfold len in *. by rewrite Hsp.
  - unfold len in *. by rewrite Hsp, Hsz.
Qed.

Lemma path_layout t t' k : same_layout t t' → path t' k = path t k.
Proof.
  intros Hsame.
  pose proof (same_layout_levels_length t t' Hsame) as Hlen.
  destruct Hsame as (Hsz & Hcap & Hmax & Hbeta & Hss & Hsalts & Hcounts & Hl & Hsp).
  unfold path, level_path, special_path, bucket_slots, bucket_start,
    special_slot, probe_limit, len.
  by rewrite Hcap, Hbeta, Hss, Hsalts, Hcounts, Hlen, Hsp.
Qed.

Lemma insert_at_entry t s s' k v :
  entry_at (insert_at s k v t) s' = entry_at (put_entry s (Entry k v true) t) s'.
Proof. by destruct s, s'. Qed.

Lemma delete_at_entry t s s' :
  entry_at (delete_at s t) s' = entry_at (put_entry s Entry0 t) s'.
Proof. by destruct s, s'. Qed.

(** *** Calls keep the layout and the invariant *)

Lemma insert_layout t k v :
  well_formed t → same_layout t (insert k v t).2.
Proof.
  intros Hwf. rewrite insert_spec by done.
  case_bool_decide; [apply same_layout_refl |].
  destruct (find_slot _ t (path t k)) as [[s e]|];
    [apply insert_at_layout | apply same_layout_refl].
Qed.

Lemma delitem_layout t k :
  well_formed t → same_layout t (__delitem__ k t).2.
Proof.
  intros Hwf. rewrite delitem_spec by done.
  destruct (find_slot _ t (path t k)) as [[s e]|];
    [apply delete_at_layout | apply same_layout_refl].
Qed.

Lemma delete_all_layout ks t :
  well_formed t → same_layout t (delete_all ks t).2.
Proof.
  revert t. induction ks as [|k ks IH]; intros t Hwf;
    [apply same_layout_refl |].
  cbn [delete_all].
  pose proof (delitem_layout t k Hwf) as Hl.
  erewrite bind_eq by done.
  destruct (__delitem__ k t) as [[err | []] t']; [done |].
  eapply same_layout_trans; [exact Hl |].
  apply IH. by eapply wf_layout.
Qed.

Lemma insert_all_layout data t :
  well_formed t → same_layout t (insert_all data t).2.
Proof.
  revert t. induction data as [|[k v] data IH]; intros t Hwf;
    [apply same_layout_refl |].
  cbn [insert_all].
  pose proof (insert_layout t k v Hwf) as Hl.
  erewrite bind_eq by done.
  destruct (insert k v t) as [[err | []] t']; [done |].
  eapply same_layout_trans; [exact Hl |].
  apply IH. by eapply wf_layout.
Qed.

Lemma exec_layout c t : well_formed t → same_layout t (exec c t).
Proof.
  intros Hwf. destruct c as [k v | k d | k | k | k d |]; simpl.
  - by apply insert_layout.
  - rewrite get_spec by done. apply same_layout_refl.
  - rewrite contains_spec by done. apply same_layout_refl.
  - by apply delitem_layout.
  - rewrite pop_spec by done.
    destruct (find_slot _ t (path t k)) as [[s e]|];
      [apply delete_at_layout | apply same_layout_refl].
  - unfold clear. rewrite bind_self. by apply delete_all_layout.
Qed.

Lemma exec_wf c t : well_formed t → well_formed (exec c t).
Proof. intros Hwf. eapply wf_layout; [by apply exec_layout | done]. Qed.

Lemma exec_all_layout cs t : well_formed t → same_layout t (exec_all cs t).
Proof.
  revert t. induction cs as [|c cs IH]; intros t Hwf;
    [apply same_layout_refl |].
  simpl. eapply same_layout_trans; [by apply (exec_layout c) |].
  apply IH. by apply exec_wf.
Qed.

Lemma init_wf capacity data delta random t :
  __init__ capacity data delta random = inr t → well_formed t.
Proof.
  destruct data as [data|]; [| apply init_fresh_wf].
  intros (t0 & Ht0%init_fresh_wf & Hins)%init_data.
  pose proof (insert_all_layout data t0 Ht0) as Hl. rewrite Hins in Hl.
  by eapply wf_layout.
Qed.

Lemma reachable_exec_all cs t : reachable t → reachable (exec_all cs t).
Proof.
  revert t. induction cs as [|c cs IH]; intros t Ht; [done |].
  simpl. apply IH. by apply reachable_exec.
Qed.

Lemma reachable_wf t : reachable t → well_formed t.
Proof.
  induction 1 as [capacity data delta random t Hinit | c t _ IH].
  - by eapply init_wf.
  - by apply exec_wf.
Qed.

(** *** Which exceptions a call can raise *)

Lemma delete_all_raised ks t :
  well_formed t →
  raised (delete_all ks t) = None ∨ raised (delete_all ks t) = Some KeyError.
Proof.
  revert t. induction ks as [|k ks IH]; intros t Hwf; [by left |].
  cbn [delete_all].
  pose proof (delitem_layout t k Hwf) as Hl.
  erewrite bind_eq by done. revert Hl. rewrite delitem_spec by done.
  destruct (find_slot _ t (path t k)) as [[s e]|]; [| by right].
  intros Hl. apply IH. by eapply wf_layout.
Qed.

Lemma outcome_cases c t :
  well_formed t →
  outcome c t = None ∨ outcome c t = Some KeyError ∨
  ∃ msg, outcome c t = Some (RuntimeError msg).
Proof.
  intros Hwf. destruct c as [k v | k d | k | k | k d |]; simpl.
  - rewrite insert_spec by done. case_bool_decide; [eauto |].
    destruct (find_slot _ t (path t k)) as [[s e]|]; eauto.
  - rewrite get_spec by done.
    destruct (find_slot _ t (path t k)) as [[s e]|]; [eauto |].
    destruct d; eauto.
  - rewrite contains_spec by done. eauto.
  - rewrite delitem_spec by done.
    destruct (find_slot _ t (path t k)) as [[s e]|]; eauto.
  - rewrite pop_spec by done.
    destruct (find_slot _ t (path t k)) as [[s e]|]; [eauto |].
    destruct d; eauto.
  - unfold clear. rewrite bind_self.
    destruct (delete_all_raised (keys t) t Hwf); eauto.
Qed.

(** *** Lookups after an insertion *)

Lemma free_or_key_holds k e :
  free_or_key k e = false → holds_key k e = false.
Proof.
  unfold free_or_key, holds_key.
  destruct (occupied e), (bool_decide (key e = k)); done.
Qed.

Lemma find_after_insert t k v s e ss :
  find_slot (free_or_key k) t ss = Some (s, e) →
  find_slot (holds_key k) (insert_at s k v t) ss = Some (s, Entry k v true).
Proof.
  unfold find_slot. intros Hfind.
  destruct (find_first_Some _ _ _ _ _ Hfind) as (_ & He & Hfree).
  induction ss as [|s0 ss IH]; [done |]. simpl in *.
  rewrite insert_at_entry, (entry_at_put _ _ _ _ _ He).
  destruct (decide (s = s0)) as [<- | Hne].
  - unfold holds_key. simpl. by rewrite bool_decide_eq_true_2.
  - destruct (entry_at t s0) as [e0|] eqn:He0; [| by apply IH].
    destruct (free_or_key k e0) eqn:Hfree0; [by simplify_eq |].
    rewrite (free_or_key_holds _ _ Hfree0). by apply IH.
Qed.

Lemma insert_then_get t k v t' d :
  well_formed t → insert k v t = (inr (), t') →
  get k d t' = (inr v, t').
Proof.
  intros Hwf. rewrite insert_spec by done.
  case_bool_decide; [done |].
  destruct (find_slot _ t (path t k)) as [[s e]|] eqn:Hfind; [| done].
  intros [= <-].
  pose proof (insert_at_layout t s k v) as Hl.
  rewrite get_spec by (by eapply wf_layout).
  rewrite (path_layout _ _ _ Hl).
  by rewrite (find_after_insert _ _ v _ _ _ Hfind).
Qed.

(** *** Calls on other keys do not change what a lookup sees *)

Lemma find_key_view k t t' ss :
  (∀ s, key_view k t' s = key_view k t s) →
  (value ∘ snd) <$> find_slot (holds_key k) t' ss =
  (value ∘ snd) <$> find_slot (holds_key k) t ss.
Proof.
  intros Hview. unfold find_slot.
  induction ss as [|s ss IH]; [done |]. simpl.
  specialize (Hview s). unfold key_view in Hview.
  destruct (entry_at t' s) as [e'|], (entry_at t s) as [e|]; simpl in *;
    try destruct (holds_key k e'); try destruct (holds_key k e);
    simplify_eq; try done.
  simpl. by f_equal.
Qed.

Lemma get_key_view k d t t' :
  well_formed t → same_layout t t' →
  (∀ s, key_view k t' s = key_view k t s) →
  (get k d t').1 = (get k d t).1 ∧
  (__contains__ k t').1 = (__contains__ k t).1.
Proof.
  intros Hwf Hl Hview.
  rewrite !get_spec, !contains_spec by (done || by eapply wf_layout).
  rewrite (path_layout _ _ _ Hl). simpl.
  pose proof (find_key_view k t t' (path t k) Hview) as Hfind.
  destruct (find_slot _ t' (path t k)) as [[s' e']|],
    (find_slot _ t (path t k)) as [[s e]|]; simplify_eq; simpl in *.
  - split; [congruence | done].
  - done.
Qed.

Lemma insert_at_key_view k k' v t s e s' :
  k' ≠ k → entry_at t s = Some e → free_or_key k' e = true →
  key_view k (insert_at s k' v t) s' = key_view k t s'.
Proof.
  intros Hne He Hfree. unfold key_view.
  rewrite insert_at_entry, (entry_at_put _ _ _ _ _ He).
  destruct (decide (s = s')) as [<- | ?]; [| done].
  rewrite He. simpl. unfold holds_key, free_or_key in *. simpl.
  rewrite (bool_decide_eq_false_2 (k' = k)) by done.
  destruct (occupied e); [| done]. simpl in *.
  apply bool_decide_eq_true in Hfree.
  rewrite bool_decide_eq_false_2 by congruence. done.
Qed.

Lemma delete_at_key_view k k' t s e s' :
  k' ≠ k → entry_at t s = Some e → holds_key k' e = true →
  key_view k (delete_at s t) s' = key_view k t s'.
Proof.
  intros Hne He Hholds. unfold key_view.
  rewrite delete_at_entry, (entry_at_put _ _ _ _ _ He).
  destruct (decide (s = s')) as [<- | ?]; [| done].
  rewrite He. simpl. unfold holds_key in *. simpl.
  apply andb_true_iff in Hholds as [-> Hk%bool_decide_eq_true]. simpl.
  rewrite bool_decide_eq_false_2 by congruence. done.
Qed.

Lemma exec_key_view k c t s :
  well_formed t → ¬ touches k c →
  key_view k (exec c t) s = key_view k t s.
Proof.
  intros Hwf Htouch. destruct c as [k' v | k' d | k' | k' | k' d |]; simpl in *.
  - rewrite insert_spec by done. case_bool_decide; [done |].
    destruct (find_slot _ t (path t k')) as [[s' e]|] eqn:Hfind; [| done].
    apply find_first_Some in Hfind as (_ & He & Hfree).
    by eapply insert_at_key_view.
  - by rewrite get_spec.
  - by rewrite contains_spec.
  - rewrite delitem_spec by done.
    destruct (find_slot _ t (path t k')) as [[s' e]|] eqn:Hfind; [| done].
    apply find_first_Some in Hfind as (_ & He & Hholds).
    by eapply delete_at_key_view.
  - rewrite pop_spec by done.
    destruct (find_slot _ t (path t k')) as [[s' e]|] eqn:Hfind;
      [| by destruct d].
    apply find_first_Some in Hfind as (_ & He & Hholds).
    by eapply delete_at_key_view.
  - done.
Qed.

Lemma exec_all_key_view k cs t s :
  well_formed t → Forall (λ c, ¬ touches k c) cs →
  key_view k (exec_all cs t) s = key_view k t s.
Proof.
  revert t. induction cs as [|c cs IH]; intros t Hwf Hcs; [done |].
  apply Forall_cons in Hcs as [Hc Hcs]. simpl.
  rewrite IH by (done || by apply exec_wf). by apply exec_key_view.
Qed.

(** *** Iteration *)

Lemma entry_items_app (l1 l2 : list Entry_) :
  entry_items (l1 ++ l2) = entry_items l1 ++ entry_items l2.
Proof. unfold entry_items. by rewrite filter_app, fmap_app. Qed.

Lemma entry_items_insert (l : list Entry_) (i : nat) e e' :
  l !! i = Some e →
  ∃ r1 r2, entry_items l = r1 ++ entry_items [e] ++ r2 ∧
           entry_items (<[i := e']> l) = r1 ++ entry_items [e'] ++ r2.
Proof.
  intros Hi. exists (entry_items (take i l)), (entry_items (drop (S i) l)).
  rewrite <- !entry_items_app. split.
  - by rewrite <- (take_drop_middle l i e) at 1.
  - by rewrite insert_take_drop by (by eapply lookup_lt_Some).
Qed.

Lemma items_put_entry t s e e' :
  entry_at t s = Some e →
  ∃ r1 r2, items t = r1 ++ entry_items [e] ++ r2 ∧
           items (put_entry s e' t) = r1 ++ entry_items [e'] ++ r2.
Proof.
  destruct s as [i idx | idx].
  - intros (Hi & Hidx & level & Hl & He)%entry_at_level.
    destruct (entry_items_insert level (Z.to_nat idx) e e' He)
      as (r1 & r2 & Hr & Hr').
    exists (mjoin (entry_items <$> take (Z.to_nat i) (levels t)) ++ r1),
      (r2 ++ mjoin (entry_items <$> drop (S (Z.to_nat i)) (levels t)) ++
       entry_items (special_array t)).
    unfold put_entry, items. rewrite Hl. simpl.
    rewrite insert_take_drop by (by eapply lookup_lt_Some).
    rewrite <- (take_drop_middle (levels t) (Z.to_nat i) level Hl) at 1.
    rewrite !fmap_app, !fmap_cons, !join_app. simpl.
    rewrite Hr, Hr'. by rewrite <- !app_assoc.
  - intros (Hidx & He)%entry_at_special.
    destruct (entry_items_insert (special_array t) (Z.to_nat idx) e e' He)
      as (r1 & r2 & Hr & Hr').
    exists (mjoin (entry_items <$> levels t) ++ r1), r2.
    unfold put_entry, items. simpl. rewrite Hr, Hr'.
    by rewrite <- !app_assoc.
Qed.

Lemma items_insert_at t s k v :
  items (insert_at s k v t) = items (put_entry s (Entry k v true) t).
Proof. by destruct s. Qed.

Lemma items_delete_at t s :
  items (delete_at s t) = items (put_entry s Entry0 t).
Proof. by destruct s. Qed.

Lemma num_inserts_put_entry t s e :
  num_inserts (put_entry s e t) = num_inserts t.
Proof.
  destruct s as [i idx | idx]; simpl; [| done].
  by destruct (levels t !! Z.to_nat i).
Qed.

Lemma num_inserts_insert_at t s k v :
  num_inserts (insert_at s k v t) = num_inserts t + 1.
Proof.
  unfold insert_at. cbv zeta.
  destruct s; cbn [num_inserts set_num_inserts set_special_occupancy];
    by rewrite num_inserts_put_entry.
Qed.

Lemma num_inserts_delete_at t s :
  num_inserts (delete_at s t) = num_inserts t - 1.
Proof.
  unfold delete_at. cbv zeta.
  destruct s; cbn [num_inserts set_num_inserts set_special_occupancy];
    by rewrite num_inserts_put_entry.
Qed.

Lemma occupied_slots_insert_at t s k v e :
  entry_at t s = Some e →
  occupied_slots (insert_at s k v t) =
  occupied_slots t + (if occupied e then 0 else 1).
Proof.
  intros He. unfold occupied_slots, len. rewrite items_insert_at.
  destruct (items_put_entry t s e (Entry k v true) He) as (r1 & r2 & -> & ->).
  rewrite !length_app. unfold entry_items. simpl.
  rewrite filter_cons, filter_nil. simpl.
  destruct (decide (occupied e = true)) as [-> | ->%not_true_is_false];
    simpl; lia.
Qed.

Lemma occupied_slots_delete_at t s e :
  entry_at t s = Some e → occupied e = true →
  occupied_slots (delete_at s t) = occupied_slots t - 1.
Proof.
  intros He Hocc. unfold occupied_slots, len. rewrite items_delete_at.
  destruct (items_put_entry t s e Entry0 He) as (r1 & r2 & -> & ->).
  rewrite !length_app. unfold entry_items.
  rewrite !filter_cons, !filter_nil. simpl.
  rewrite decide_True by done. simpl. lia.
Qed.

Lemma holds_key_occupied k e : holds_key k e = true → occupied e = true.
Proof. unfold holds_key. by intros [? _]%andb_true_iff. Qed.

Lemma holds_key_key k e : holds_key k e = true → key e = k.
Proof.
  unfold holds_key. by intros [_ ?%bool_decide_eq_true]%andb_true_iff.
Qed.

(** *** Occupied slots never outnumber the counter *)

Lemma insert_counted t k v :
  well_formed t → occupied_slots t ≤ num_inserts t →
  occupied_slots (insert k v t).2 ≤ num_inserts (insert k v t).2.
Proof.
  intros Hwf Hle. rewrite insert_spec by done.
  case_bool_decide; [done |].
  destruct (find_slot _ t (path t k)) as [[s e]|] eqn:Hfind; [| done].
  apply find_first_Some in Hfind as (_ & He & _). cbn [snd].
  rewrite num_inserts_insert_at, (occupied_slots_insert_at _ _ _ _ _ He).
  destruct (occupied e); lia.
Qed.

Lemma delete_at_counted t k s e :
  find_slot (holds_key k) t (path t k) = Some (s, e) →
  occupied_slots t ≤ num_inserts t →
  occupied_slots (delete_at s t) ≤ num_inserts (delete_at s t).
Proof.
  intros (_ & He & Hocc%holds_key_occupied)%find_first_Some Hle.
  rewrite num_inserts_delete_at, (occupied_slots_delete_at _ _ _ He Hocc).
  lia.
Qed.

Lemma delitem_counted t k :
  well_formed t → occupied_slots t ≤ num_inserts t →
  occupied_slots (__delitem__ k t).2 ≤ num_inserts (__delitem__ k t).2.
Proof.
  intros Hwf Hle. rewrite delitem_spec by done.
  destruct (find_slot _ t (path t k)) as [[s e]|] eqn:Hfind; [| done].
  by eapply delete_at_counted.
Qed.

Lemma delete_all_counted ks t :
  well_formed t → occupied_slots t ≤ num_inserts t →
  occupied_slots (delete_all ks t).2 ≤ num_inserts (delete_all ks t).2.
Proof.
  revert t. induction ks as [|k ks IH]; intros t Hwf Hle; [done |].
  cbn [delete_all].
  pose proof (delitem_layout t k Hwf) as Hl.
  pose proof (delitem_counted t k Hwf Hle) as Hle'.
  erewrite bind_eq by done.
  destruct (__delitem__ k t) as [[err | []] t']; [done |].
  apply IH; [by eapply wf_layout | done].
Qed.

Lemma insert_all_counted data t :
  well_formed t → occupied_slots t ≤ num_inserts t →
  occupied_slots (insert_all data t).2 ≤ num_inserts (insert_all data t).2.
Proof.
  revert t. induction data as [|[k v] data IH]; intros t Hwf Hle; [done |].
  cbn [insert_all].
  pose proof (insert_layout t k v Hwf) as Hl.
  pose proof (insert_counted t k v Hwf Hle) as Hle'.
  erewrite bind_eq by done.
  destruct (insert k v t) as [[err | []] t']; [done |].
  apply IH; [by eapply wf_layout | done].
Qed.

Lemma exec_counted c t :
  well_formed t → occupied_slots t ≤ num_inserts t →
  occupied_slots (exec c t) ≤ num_inserts (exec c t).
Proof.
  intros Hwf Hle. destruct c as [k v | k d | k | k | k d |]; simpl.
  - by apply insert_counted.
  - by rewrite get_spec.
  - by rewrite contains_spec.
  - by apply delitem_counted.
  - rewrite pop_spec by done.
    destruct (find_slot _ t (path t k)) as [[s e]|] eqn:Hfind;
      [| by destruct d].
    by eapply delete_at_counted.
  - unfold clear. rewrite bind_self. by apply delete_all_counted.
Qed.

Lemma entry_items_replicate (n : nat) : entry_items (replicate n Entry0) = [].
Proof.
  unfold entry_items. induction n as [|n IH]; [done |]. simpl.
  rewrite filter_cons. exact IH.
Qed.

Lemma init_fresh_items cap delta random t :
  __init__ cap None delta random = inr t → items t = [] ∧ num_inserts t = 0.
Proof.
  intros (_ & _ & _ & counts & salts & ls & Hb & ->)%init_fresh.
  apply build_levels_spec in Hb as (_ & Hlen & _ & Hlev).
  split; [| done]. unfold items. simpl.
  rewrite entry_items_replicate, app_nil_r.
  clear -Hlen Hlev. revert counts Hlen Hlev.
  induction ls as [|level ls IH]; intros counts Hlen Hlev; [done |].
  destruct counts as [|count counts]; [done |].
  rewrite fmap_cons. simpl.
  destruct (Hlev 0%nat count level eq_refl eq_refl) as [_ ->].
  rewrite entry_items_replicate. simpl.
  apply (IH counts); [simpl in Hlen; lia |].
  intros i. apply (Hlev (S i)).
Qed.

Lemma reachable_counted t : reachable t → occupied_slots t ≤ num_inserts t.
Proof.
  induction 1 as [cap data delta random t Hinit | c t Hreach IH].
  - destruct data as [data|].
    + apply init_data in Hinit as (t0 & Ht0 & Hins).
      pose proof (init_fresh_items _ _ _ _ Ht0) as [Hitems Hnum].
      pose proof (insert_all_counted data t0 (init_fresh_wf _ _ _ _ Ht0)) as Hle.
      rewrite Hins in Hle. apply Hle.
      unfold occupied_slots. rewrite Hitems, Hnum. done.
    + pose proof (init_fresh_items _ _ _ _ Hinit) as [Hitems Hnum].
      unfold occupied_slots. rewrite Hitems, Hnum. done.
  - apply exec_counted; [by apply reachable_wf | done].
Qed.

(** *** Inserting keys that are not in the table *)

Lemma entry_at_items t s e :
  entry_at t s = Some e → occupied e = true →
  (key e, value e) ∈ items t.
Proof.
  intros He Hocc.
  destruct (items_put_entry t s e e He) as (r1 & r2 & -> & _).
  unfold entry_items. rewrite filter_cons, decide_True by done.
  rewrite fmap_cons, !elem_of_app. right. left. left.
Qed.

Lemma insert_fresh_key t k v t' :
  well_formed t → k ∉ (items t).*1 → insert k v t = (inr (), t') →
  items t' ≡ₚ (k, v) :: items t.
Proof.
  intros Hwf Hfresh. rewrite insert_spec by done.
  case_bool_decide; [done |].
  destruct (find_slot _ t (path t k)) as [[s e]|] eqn:Hfind; [| done].
  intros [= <-].
  apply find_first_Some in Hfind as (_ & He & Hfree).
  assert (occupied e = false) as Hocc.
  { destruct (occupied e) eqn:Hocc; [| done]. exfalso. apply Hfresh.
    unfold free_or_key in Hfree. rewrite Hocc in Hfree. simpl in Hfree.
    apply bool_decide_eq_true in Hfree as <-.
    apply list_elem_of_fmap. exists (key e, value e). split; [done |].
    by eapply entry_at_items. }
  rewrite items_insert_at.
  destruct (items_put_entry t s e (Entry k v true) He) as (r1 & r2 & -> & ->).
  unfold entry_items. rewrite !filter_cons, !filter_nil. simpl.
  rewrite decide_False by congruence. simpl.
  by rewrite <- Permutation_middle.
Qed.

Lemma insert_all_items data t t' :
  well_formed t → NoDup data.*1 →
  (∀ k, k ∈ data.*1 → k ∉ (items t).*1) →
  insert_all data t = (inr (), t') →
  items t' ≡ₚ items t ++ data.
Proof.
  revert t. induction data as [|[k v] data IH]; intros t Hwf Hdup Hfresh.
  { intros [= <-]. by rewrite app_nil_r. }
  cbn [insert_all]. rewrite fmap_cons in Hdup, Hfresh.
  apply NoDup_cons in Hdup as [Hk Hdup].
  pose proof (insert_layout t k v Hwf) as Hl.
  erewrite bind_eq by done.
  destruct (insert k v t) as [[err | []] t1] eqn:Hins; [done |].
  intros Hrest.
  pose proof (insert_fresh_key t k v t1 Hwf (Hfresh k ltac:(left)) Hins)
    as Hitems.
  rewrite (IH t1); [| by eapply wf_layout | done | | done].
  - rewrite Hitems. by rewrite <- Permutation_middle.
  - intros k' Hk'. rewrite Hitems, fmap_cons. simpl.
    intros [-> | ?]%elem_of_cons; [done |].
    by apply (Hfresh k'); [right |].
Qed.

Lemma insert_all_exec data t t' :
  insert_all data t = (inr (), t') →
  exec_all ((λ kv, Call_insert kv.1 kv.2) <$> data) t = t'.
Proof.
  revert t. induction data as [|[k v] data IH]; intros t.
  { by intros [= <-]. }
  cbn [insert_all]. erewrite bind_eq by done.
  destruct (insert k v t) as [[err | []] t1] eqn:Hins; [done |].
  intros Hrest. rewrite fmap_cons. simpl. rewrite Hins. simpl. by apply IH.
Qed.

Lemma insert_all_get data t t' k v :
  well_formed t → NoDup data.*1 →
  insert_all data t = (inr (), t') → (k, v) ∈ data →
  get k None t' = (inr v, t').
Proof.
  revert t. induction data as [|[k0 v0] data IH]; intros t Hwf Hdup.
  { by intros _ ?%elem_of_nil. }
  cbn [insert_all]. rewrite fmap_cons in Hdup.
  apply NoDup_cons in Hdup as [Hk0 Hdup].
  pose proof (insert_layout t k0 v0 Hwf) as Hl.
  erewrite bind_eq by done.
  destruct (insert k0 v0 t) as [[err | []] t1] eqn:Hins; [done |].
  simpl in Hl. assert (well_formed t1) as Hwf1 by (by eapply wf_layout).
  intros Hrest [[= -> ->] | Hin]%elem_of_cons; [| by eapply IH].
  pose proof (insert_then_get t k0 v0 t1 None Hwf Hins) as Hget.
  pose proof (insert_all_exec _ _ _ Hrest) as <-.
  set (cs := (λ kv, Call_insert kv.1 kv.2) <$> data) in *.
  pose proof (exec_all_layout cs t1 Hwf1) as Hl'.
  destruct (get_key_view k0 None t1 (exec_all cs t1) Hwf1 Hl') as [Hg _].
  { intros s. apply exec_all_key_view; [done |].
    apply Forall_fmap, Forall_forall. intros [k' v'] Hkv. simpl.
    intros ->. apply Hk0, list_elem_of_fmap. by exists (k0, v'). }
  rewrite Hget in Hg.
  rewrite get_spec in Hg |- * by (done || by eapply wf_layout).
  simpl in *. by rewrite Hg.
Qed.

(** *** Clearing *)

Lemma items_entry_at t k v :
  (k, v) ∈ items t →
  ∃ s e, entry_at t s = Some e ∧ occupied e = true ∧ key e = k.
Proof.
  assert (∀ l : list Entry_, (k, v) ∈ entry_items l →
    ∃ idx e, l !! idx = Some e ∧ occupied e = true ∧ key e = k) as Hl.
  { intros l (e & [= -> ->] & [Hocc He]%list_elem_of_filter)%list_elem_of_fmap.
    apply list_elem_of_lookup in He as [idx He]. by exists idx, e. }
  unfold items. intros [Hin | Hin]%elem_of_app.
  - apply list_elem_of_join in Hin as (r & Hkv & Hr).
    apply list_elem_of_fmap in Hr as (level & -> & Hlevel).
    apply list_elem_of_lookup in Hlevel as [i Hlevel].
    destruct (Hl level Hkv) as (idx & e & He & Hocc & Hk).
    exists (LevelSlot (Z.of_nat i) (Z.of_nat idx)), e.
    split; [| done]. apply entry_at_level.
    rewrite !Nat2Z.id. naive_solver lia.
  - destruct (Hl _ Hin) as (idx & e & He & Hocc & Hk).
    exists (SpecialSlot (Z.of_nat idx)), e.
    split; [| done]. apply entry_at_special.
    rewrite !Nat2Z.id. naive_solver lia.
Qed.

Lemma insert_at_on_path t k v s e :
  find_slot (free_or_key k) t (path t k) = Some (s, e) →
  on_path t → on_path (insert_at s k v t).
Proof.
  intros (Hs & He & _)%find_first_Some Hon s' e'.
  rewrite insert_at_entry, (entry_at_put _ _ _ _ _ He).
  rewrite (path_layout _ _ _ (insert_at_layout t s k v)).
  destruct (decide (s = s')) as [<- | ?]; [| apply Hon].
  by intros [= <-] _.
Qed.

Lemma delete_at_on_path t s e :
  entry_at t s = Some e → on_path t → on_path (delete_at s t).
Proof.
  intros He Hon s' e'.
  rewrite delete_at_entry, (entry_at_put _ _ _ _ _ He).
  rewrite (path_layout _ _ _ (delete_at_layout t s)).
  destruct (decide (s = s')) as [<- | ?]; [| apply Hon].
  by intros [= <-] ?.
Qed.

Lemma exec_on_path c t : well_formed t → on_path t → on_path (exec c t).
Proof.
  intros Hwf Hon. destruct c as [k v | k d | k | k | k d |]; simpl.
  - rewrite insert_spec by done. case_bool_decide; [done |].
    destruct (find_slot _ t (path t k)) as [[s e]|] eqn:Hfind; [| done].
    by eapply insert_at_on_path.
  - by rewrite get_spec.
  - by rewrite contains_spec.
  - rewrite delitem_spec by done.
    destruct (find_slot _ t (path t k)) as [[s e]|] eqn:Hfind; [| done].
    apply find_first_Some in Hfind as (_ & He & _).
    by eapply delete_at_on_path.
  - rewrite pop_spec by done.
    destruct (find_slot _ t (path t k)) as [[s e]|] eqn:Hfind;
      [| by destruct d].
    apply find_first_Some in Hfind as (_ & He & _).
    by eapply delete_at_on_path.
  - unfold clear. rewrite bind_self. generalize (keys t) as ks.
    intros ks. revert t Hwf Hon.
    induction ks as [|k ks IH]; intros t Hwf Hon; [done |].
    cbn [delete_all].
    pose proof (delitem_layout t k Hwf) as Hl.
    erewrite bind_eq by done. revert Hl. rewrite delitem_spec by done.
    destruct (find_slot _ t (path t k)) as [[s e]|] eqn:Hfind; [| done].
    apply find_first_Some in Hfind as (_ & He & _).
    intros Hl. apply IH; [by eapply wf_layout |].
    by eapply delete_at_on_path.
Qed.

Lemma insert_all_on_path data t :
  well_formed t → on_path t → on_path (insert_all data t).2.
Proof.
  revert t. induction data as [|[k v] data IH]; intros t Hwf Hon; [done |].
  cbn [insert_all].
  pose proof (insert_layout t k v Hwf) as Hl.
  pose proof (exec_on_path (Call_insert k v) t Hwf Hon) as Hon'.
  simpl in Hon'. erewrite bind_eq by done.
  destruct (insert k v t) as [[err | []] t']; [done |].
  apply IH; [by eapply wf_layout | done].
Qed.

Lemma reachable_on_path t : reachable t → on_path t.
Proof.
  induction 1 as [cap data delta random t Hinit | c t Hreach IH].
  - assert (∀ t0, __init__ cap None delta random = inr t0 → on_path t0)
      as Hfresh.
    { intros t0 [Hitems _]%init_fresh_items s e He Hocc.
      pose proof (entry_at_items t0 s e He Hocc) as Hin.
      rewrite Hitems in Hin. by apply elem_of_nil in Hin. }
    destruct data as [data|]; [| by apply Hfresh].
    apply init_data in Hinit as (t0 & Ht0 & Hins).
    pose proof (insert_all_on_path data t0
      (init_fresh_wf _ _ _ _ Ht0) (Hfresh t0 Ht0)) as Hon.
    by rewrite Hins in Hon.
  - apply exec_on_path; [by apply reachable_wf | done].
Qed.

(** Deleting the keys that iteration yields, one call per yielded key,
    never raises and frees every slot; the counter goes down by one per
    call. *)
Lemma delete_all_empties ks t :
  well_formed t → on_path t → ks ≡ₚ keys t →
  ∃ t', delete_all ks t = (inr (), t') ∧ items t' = [] ∧
        num_inserts t' = num_inserts t - len ks.
Proof.
  revert t. induction ks as [|k ks IH]; intros t Hwf Hon Hks.
  { exists t. split; [done |]. split; [| unfold len; simpl; lia].
    apply Permutation_nil in Hks.
    by apply fmap_nil_inv in Hks. }
  assert (k ∈ keys t) as Hk by (rewrite <- Hks; left).
  apply list_elem_of_fmap in Hk as ([k' v] & -> & Hkv). simpl in *.
  destruct (items_entry_at t k' v Hkv) as (s0 & e0 & He0 & Hocc0 & Hk0).
  pose proof (Hon s0 e0 He0 Hocc0) as Hs0. rewrite Hk0 in Hs0.
  cbn [delete_all]. erewrite bind_eq by (by apply delitem_spec).
  destruct (find_slot (holds_key k') t (path t k')) as [[s e]|] eqn:Hfind.
  2:{ pose proof (find_first_None _ _ _ _ _ Hfind Hs0 He0) as Hno.
      unfold holds_key in Hno. rewrite Hocc0, Hk0 in Hno. simpl in Hno.
      by rewrite bool_decide_eq_true_2 in Hno. }
  apply find_first_Some in Hfind as (_ & He & Hholds).
  pose proof (holds_key_occupied _ _ Hholds) as Hocc.
  pose proof (holds_key_key _ _ Hholds) as Hkey.
  destruct (IH (delete_at s t)) as (t' & Hdel & Hitems & Hnum).
  - eapply wf_layout; [apply delete_at_layout | done].
  - by eapply delete_at_on_path.
  - unfold keys in *. rewrite items_delete_at.
    destruct (items_put_entry t s e Entry0 He) as (r1 & r2 & Hr & ->).
    rewrite Hr in Hks. revert Hks. unfold entry_items.
    rewrite !filter_cons, !filter_nil. simpl.
    rewrite decide_True by done. simpl.
    rewrite !fmap_app, fmap_cons. simpl. rewrite Hkey.
    rewrite <- Permutation_middle. apply Permutation_cons_inv.
  - exists t'. split; [done |]. split; [done |].
    rewrite Hnum, num_inserts_delete_at. unfold len. simpl. lia.
Qed.

Lemma clear_empties t :
  reachable t →
  ∃ t', clear t = (inr (), t') ∧ items t' = [] ∧
        num_inserts t' = num_inserts t - occupied_slots t.
Proof.
  intros Hreach. unfold clear. rewrite bind_self.
  destruct (delete_all_empties (keys t) t) as (t' & Hdel & Hitems & Hnum);
    [by apply reachable_wf | by apply reachable_on_path | done |].
  exists t'. split; [done |]. split; [done |].
  rewrite Hnum. unfold occupied_slots, keys, len. by rewrite length_fmap.
Qed.

(** * The claims *)

(** C1. In every reachable state, when [insert(k, v)] returns,
    [get(k)] returns [v] and [k in table] is true; and both stay so
    after any further calls, as long as none of them is an insert,
    delete or pop of [k] or a [clear]. *)
Theorem C1_insert_then_get t k v t' :
  reachable t → insert k v t = (inr (), t') →
  get k None t' = (inr v, t') ∧ __contains__ k t' = (inr true, t') ∧
  ∀ cs, Forall (λ c, ¬ touches k c) cs →
    get k None (exec_all cs t') = (inr v, exec_all cs t') ∧
    __contains__ k (exec_all cs t') = (inr true, exec_all cs t').
Proof.
  intros Hwf%reachable_wf Hins.
  assert (well_formed t') as Hwf'.
  { pose proof (insert_layout t k v Hwf) as Hl. rewrite Hins in Hl.
    by eapply wf_layout. }
  pose proof (insert_then_get t k v t' None Hwf Hins) as Hget.
  assert (__contains__ k t' = (inr true, t')) as Hin.
  { unfold __contains__, try_except_KeyError.
    by erewrite bind_eq by done. }
  split; [done |]. split; [done |].
  intros cs Hcs.
  pose proof (exec_all_layout cs t' Hwf') as Hl.
  destruct (get_key_view k None t' (exec_all cs t') Hwf' Hl) as [Hg Hc].
  { intros s. by apply exec_all_key_view. }
  rewrite Hget in Hg. rewrite Hin in Hc.
  assert (well_formed (exec_all cs t')) as Hwf'' by (by eapply wf_layout).
  rewrite get_spec in Hg |- * by done.
  rewrite contains_spec in Hc |- * by done.
  simpl in *. by rewrite Hg, Hc.
Qed.

(** C4. Every [insert] call that returns advances the counter that
    [len] reports by one, also when the slot it writes is an occupied
    slot that already holds the key: then the number of occupied slots
    stays the same, and from then on [len] is larger than the number of
    occupied slots. *)
Theorem C4_counter_counts_calls t k v t' :
  reachable t → insert k v t = (inr (), t') →
  __len__ t' = __len__ t + 1 ∧
  ∀ s e, find_slot (free_or_key k) t (path t k) = Some (s, e) →
    occupied e = true →
    key e = k ∧ entry_at t' s = Some (Entry k v true) ∧
    occupied_slots t' = occupied_slots t ∧
    occupied_slots t' < __len__ t'.
Proof.
  intros Hreach Hins.
  pose proof (reachable_wf t Hreach) as Hwf.
  pose proof (reachable_counted t Hreach) as Hle.
  revert Hins. rewrite insert_spec by done.
  case_bool_decide; [done |].
  destruct (find_slot _ t (path t k)) as [[s e]|] eqn:Hfind; [| done].
  intros [= <-]. unfold __len__.
  split; [apply num_inserts_insert_at |].
  intros ? ? [= <- <-] Hocc.
  apply find_first_Some in Hfind as (_ & He & Hfree).
  unfold free_or_key in Hfree. rewrite Hocc in Hfree. simpl in Hfree.
  apply bool_decide_eq_true in Hfree.
  rewrite insert_at_entry, (entry_at_put_eq _ _ _ _ He).
  rewrite num_inserts_insert_at, (occupied_slots_insert_at _ _ _ _ _ He), Hocc.
  repeat split; [done | lia | lia].
Qed.

(** C5. In every table state, [insert] called when
    [num_inserts >= max_inserts] raises the capacity error and returns
    the very same state: no slot and no counter changes. *)
Theorem C5_insert_at_capacity t k v :
  num_inserts t >= max_inserts t →
  insert k v t = (inl (RuntimeError "Hash table is full."), t).
Proof.
  intros Hfull. unfold insert. rewrite bind_self.
  by rewrite bool_decide_eq_true_2.
Qed.

(** C7. When the same pairs with distinct keys are inserted into a
    fresh table in two different orders and every insert returns, then
    in both tables iteration yields exactly those pairs (up to order)
    and [get] of every key returns its value. *)
Theorem C7_round_trip cap delta random t0 data data' t t' :
  __init__ cap None delta random = inr t0 →
  NoDup data.*1 → data' ≡ₚ data →
  insert_all data t0 = (inr (), t) →
  insert_all data' t0 = (inr (), t') →
  items t ≡ₚ data ∧ items t' ≡ₚ data ∧
  ∀ k v, (k, v) ∈ data →
    get k None t = (inr v, t) ∧ get k None t' = (inr v, t').
Proof.
  intros Hinit Hdup Hperm Hins Hins'.
  pose proof (init_fresh_wf _ _ _ _ Hinit) as Hwf.
  pose proof (init_fresh_items _ _ _ _ Hinit) as [Hitems _].
  assert (NoDup data'.*1) as Hdup' by (by rewrite Hperm).
  split; [| split].
  - rewrite (insert_all_items data t0 t); [| done | done | | done].
    + by rewrite Hitems.
    + intros k _. rewrite Hitems. apply not_elem_of_nil.
  - rewrite (insert_all_items data' t0 t'); [| done | done | | done].
    + by rewrite Hitems.
    + intros k _. rewrite Hitems. apply not_elem_of_nil.
  - intros k v Hkv. split.
    + exact (insert_all_get data t0 t k v Hwf Hdup Hins Hkv).
    + apply (insert_all_get data' t0 t' k v Hwf Hdup' Hins').
      by rewrite Hperm.
Qed.


(** C10. In every reachable state and for every key, the indices that
    the scans compute are inside the lists they index: the salted hash
    is a non-negative 31-bit integer; in each level the bucket count is
    at least one and every slot index of the key's bucket lies inside
    the level's slot list; the special array has at least one slot and
    every probe index lies inside it; and no call ever raises
    [IndexError] or [ZeroDivisionError]. *)
Theorem C10_indices_in_bounds t k :
  reachable t →
  (∀ salt, 0 ≤ _hash k salt < 2 ^ 31) ∧
  (∀ i, 0 ≤ i < len (levels t) →
     ∃ count level idxs,
       getitem (level_bucket_counts t) i = inr count ∧ 1 ≤ count ∧
       getitem (levels t) i = inr level ∧
       bucket_range k i t = (inr idxs, t) ∧
       ∀ idx, idx ∈ idxs → 0 ≤ idx < len level) ∧
  1 ≤ special_size t ∧ len (special_array t) = special_size t ∧
  (∀ j, ∃ idx,
     special_index k (len (special_array t)) j t = (inr idx, t) ∧
     0 ≤ idx < len (special_array t)) ∧
  (∀ c, outcome c t ≠ Some IndexError ∧ outcome c t ≠ Some ZeroDivisionError).
Proof.
  intros Hwf%reachable_wf. split; [| split; [| split; [| split; [| split]]]].
  - intros salt. apply hash_bounds.
  - intros i Hi.
    destruct (level_lookups t i Hwf Hi)
      as (salt & count & level & Hs & Hc & Hl & Hcount & Hlen).
    exists count, level, (range (bucket_start t k i) (bucket_start t k i + beta t)).
    split; [apply getitem_lookup; [lia | done] |]. split; [done |].
    split; [apply getitem_lookup; [lia | done] |].
    split; [by apply bucket_range_wf |].
    intros idx Hidx%elem_of_range.
    pose proof (bucket_start_bounds t k i count Hwf Hc Hcount). lia.
  - rewrite <- (wf_special_size _ Hwf). apply (wf_special _ Hwf).
  - apply (wf_special_size _ Hwf).
  - intros j.
    destruct (special_index_wf t k j Hwf) as (idx & e & Hidx & _ & Hb & _).
    eauto.
  - intros c.
    destruct (outcome_cases c t Hwf) as [-> | [-> | [msg ->]]]; done.
Qed.

(** * Further properties *)

(** *** Keys that are absent and keys that are present *)

Lemma find_holder t k s e ss :
  find_slot (holds_key k) t ss = Some (s, e) →
  entry_at t s = Some e ∧ occupied e = true ∧ key e = k ∧
  (k, value e) ∈ items t.
Proof.
  intros (_ & He & Hholds)%find_first_Some.
  pose proof (holds_key_occupied _ _ Hholds) as Hocc.
  pose proof (holds_key_key _ _ Hholds) as Hkey.
  repeat split; try done. rewrite <- Hkey. by eapply entry_at_items.
Qed.

Lemma absent_find t k ss :
  k ∉ keys t → find_slot (holds_key k) t ss = None.
Proof.
  intros Habsent.
  destruct (find_slot (holds_key k) t ss) as [[s e]|] eqn:Hfind; [| done].
  apply find_holder in Hfind as (_ & _ & _ & Hin).
  exfalso. apply Habsent, list_elem_of_fmap. by exists (k, value e).
Qed.

Lemma present_find t k :
  on_path t → k ∈ keys t →
  ∃ s e, find_slot (holds_key k) t (path t k) = Some (s, e).
Proof.
  intros Hon ([k' v] & -> & Hkv)%list_elem_of_fmap. simpl.
  destruct (items_entry_at t k' v Hkv) as (s0 & e0 & He0 & Hocc0 & Hk0).
  pose proof (Hon s0 e0 He0 Hocc0) as Hs0. rewrite Hk0 in Hs0.
  destruct (find_slot (holds_key k') t (path t k')) as [[s e]|] eqn:Hfind;
    [by eauto |].
  pose proof (find_first_None _ _ _ _ _ Hfind Hs0 He0) as Hno.
  unfold holds_key in Hno. rewrite Hocc0, Hk0 in Hno. simpl in Hno.
  by rewrite bool_decide_eq_true_2 in Hno.
Qed.

Lemma items_delete_at_perm t s e :
  entry_at t s = Some e → occupied e = true →
  items t ≡ₚ (key e, value e) :: items (delete_at s t).
Proof.
  intros He Hocc. rewrite items_delete_at.
  destruct (items_put_entry t s e Entry0 He) as (r1 & r2 & -> & ->).
  unfold entry_items. rewrite !filter_cons, !filter_nil. simpl.
  rewrite decide_True by done. simpl. by rewrite <- Permutation_middle.
Qed.

(** X1. The salted hash is the exclusive or of the key's hash and the
    salt, reduced modulo [2 ** 31]: the conversion to a 32-bit [int]
    before the mask loses nothing that the mask keeps. *)
Theorem X1_hash_is_xor_mod k salt :
  _hash k salt = Z.lxor (hash k) salt `mod` 2 ^ 31.
Proof.
  unfold _hash, wrap_int. cbv zeta.
  change 0x7FFFFFFF with (Z.ones 31). rewrite Z.land_ones by lia.
  set (x := Z.lxor (hash k) salt).
  replace ((x + 2 ^ 31) `mod` 2 ^ 32 - 2 ^ 31)
    with ((x + 2 ^ 31) `mod` 2 ^ 32 + (-1) * 2 ^ 31) by lia.
  rewrite Z.mod_add by lia.
  rewrite Z.mod_mod_divide by (exists 2; lia).
  replace (x + 2 ^ 31) with (x + 1 * 2 ^ 31) by lia.
  by rewrite Z.mod_add by lia.
Qed.

(** X2. In every reachable state [get], [self[key]] and [key in self]
    leave the table exactly as it is, whether they return or raise. *)
Theorem X2_lookups_do_not_mutate t k d :
  reachable t →
  (get k d t).2 = t ∧ (__getitem__ k t).2 = t ∧ (__contains__ k t).2 = t.
Proof.
  intros Hwf%reachable_wf. unfold __getitem__.
  by rewrite !get_spec, contains_spec.
Qed.

(** X3. In every reachable state a call that raises leaves the table
    exactly as it was: [insert], [get], [in], [del] and [pop] raise
    before they write, and [clear] never raises. *)
Theorem X3_raising_call_changes_nothing t c err :
  reachable t → outcome c t = Some err → exec c t = t.
Proof.
  intros Hreach. pose proof (reachable_wf t Hreach) as Hwf.
  destruct c as [k v | k d | k | k | k d |]; simpl.
  - rewrite insert_spec by done. case_bool_decide; [done |].
    by destruct (find_slot _ t (path t k)) as [[s e]|].
  - by rewrite get_spec.
  - by rewrite contains_spec.
  - rewrite delitem_spec by done.
    by destruct (find_slot _ t (path t k)) as [[s e]|].
  - rewrite pop_spec by done.
    by destruct (find_slot _ t (path t k)) as [[s e]|].
  - by destruct (clear_empties t Hreach) as (t' & -> & _).
Qed.

(** X4. A key that iteration does not yield is missing for every method:
    [get] and [pop] without a default and [del] raise [KeyError], [get]
    and [pop] with a default return the default, [in] is false, and none
    of them changes the table. *)
Theorem X4_missing_key t k d :
  reachable t → k ∉ keys t →
  get k None t = (inl KeyError, t) ∧
  get k (Some d) t = (inr d, t) ∧
  __contains__ k t = (inr false, t) ∧
  __delitem__ k t = (inl KeyError, t) ∧
  pop k None t = (inl KeyError, t) ∧
  pop k (Some d) t = (inr d, t).
Proof.
  intros Hwf%reachable_wf Habsent.
  rewrite !get_spec, contains_spec, delitem_spec, !pop_spec by done.
  by rewrite (absent_find t k (path t k) Habsent).
Qed.

(** X5. A key that iteration yields is found: [get] (with or without a
    default) returns a value that iteration yields with this key, and
    [in] is true. *)
Theorem X5_present_key t k d :
  reachable t → k ∈ keys t →
  ∃ v, (k, v) ∈ items t ∧ get k d t = (inr v, t) ∧
       __contains__ k t = (inr true, t).
Proof.
  intros Hreach Hk. pose proof (reachable_wf t Hreach) as Hwf.
  destruct (present_find t k (reachable_on_path t Hreach) Hk)
    as (s & e & Hfind).
  exists (value e). rewrite get_spec, contains_spec by done.
  rewrite Hfind. split; [| done].
  by apply find_holder in Hfind as (_ & _ & _ & Hin).
Qed.

(** X6. In every reachable state [key in self] is true exactly for the
    keys that iteration yields. *)
Theorem X6_membership_is_iteration t k :
  reachable t →
  __contains__ k t = (inr true, t) ↔ k ∈ keys t.
Proof.
  intros Hreach. pose proof (reachable_wf t Hreach) as Hwf.
  rewrite contains_spec by done. split.
  - destruct (find_slot _ t (path t k)) as [[s e]|] eqn:Hfind; [| done].
    intros _. apply find_holder in Hfind as (_ & _ & _ & Hin).
    apply list_elem_of_fmap. by exists (k, value e).
  - intros Hk.
    destruct (present_find t k (reachable_on_path t Hreach) Hk)
      as (s & e & ->). done.
Qed.

(** X7. For a key that iteration yields, [del self[key]] returns and
    [pop] returns the value that [get] returns; both leave the same
    table, in which exactly one pair with this key is gone from the
    iteration and [len] is one less. *)
Theorem X7_delete_and_pop t k d :
  reachable t → k ∈ keys t →
  ∃ v t', get k None t = (inr v, t) ∧
          __delitem__ k t = (inr (), t') ∧
          pop k d t = (inr v, t') ∧
          items t ≡ₚ (k, v) :: items t' ∧
          __len__ t' = __len__ t - 1.
Proof.
  intros Hreach Hk. pose proof (reachable_wf t Hreach) as Hwf.
  destruct (present_find t k (reachable_on_path t Hreach) Hk)
    as (s & e & Hfind).
  exists (value e), (delete_at s t).
  rewrite get_spec, delitem_spec, pop_spec by done. rewrite Hfind.
  apply find_holder in Hfind as (He & Hocc & <- & _).
  repeat split; try done.
  - by apply items_delete_at_perm.
  - apply num_inserts_delete_at.
Qed.

(** *** Invariants of reachable states *)

Section invariant.
Context (P : Table_ → Prop).
Hypothesis P_insert : ∀ t k v s e,
  well_formed t → P t → ¬ num_inserts t >= max_inserts t →
  find_slot (free_or_key k) t (path t k) = Some (s, e) →
  P (insert_at s k v t).
Hypothesis P_delete : ∀ t k s e,
  well_formed t → P t →
  find_slot (holds_key k) t (path t k) = Some (s, e) →
  P (delete_at s t).

Lemma insert_invariant t k v : well_formed t → P t → P (insert k v t).2.
Proof.
  intros Hwf HP. rewrite insert_spec by done. case_bool_decide; [done |].
  destruct (find_slot _ t (path t k)) as [[s e]|] eqn:Hfind; [| done].
  by eapply P_insert.
Qed.

Lemma delitem_invariant t k : well_formed t → P t → P (__delitem__ k t).2.
Proof.
  intros Hwf HP. rewrite delitem_spec by done.
  destruct (find_slot _ t (path t k)) as [[s e]|] eqn:Hfind; [| done].
  by eapply P_delete.
Qed.

Lemma insert_all_invariant data t :
  well_formed t → P t → P (insert_all data t).2.
Proof.
  revert t. induction data as [|[k v] data IH]; intros t Hwf HP; [done |].
  cbn [insert_all].
  pose proof (insert_layout t k v Hwf) as Hl.
  pose proof (insert_invariant t k v Hwf HP) as HP'.
  erewrite bind_eq by done.
  destruct (insert k v t) as [[err | []] t']; [done |].
  apply IH; [by eapply wf_layout | done].
Qed.

Lemma delete_all_invariant ks t :
  well_formed t → P t → P (delete_all ks t).2.
Proof.
  revert t. induction ks as [|k ks IH]; intros t Hwf HP; [done |].
  cbn [delete_all].
  pose proof (delitem_layout t k Hwf) as Hl.
  pose proof (delitem_invariant t k Hwf HP) as HP'.
  erewrite bind_eq by done.
  destruct (__delitem__ k t) as [[err | []] t']; [done |].
  apply IH; [by eapply wf_layout | done].
Qed.

Lemma exec_invariant c t : well_formed t → P t → P (exec c t).
Proof.
  intros Hwf HP. destruct c as [k v | k d | k | k | k d |]; simpl.
  - by apply insert_invariant.
  - by rewrite get_spec.
  - by rewrite contains_spec.
  - by apply delitem_invariant.
  - rewrite pop_spec by done.
    destruct (find_slot _ t (path t k)) as [[s e]|] eqn:Hfind;
      [by eapply P_delete | by destruct d].
  - unfold clear. rewrite bind_self. by apply delete_all_invariant.
Qed.

Lemma exec_all_invariant cs t : well_formed t → P t → P (exec_all cs t).
Proof.
  revert t. induction cs as [|c cs IH]; intros t Hwf HP; [done |].
  simpl. apply IH; [by apply exec_wf | by apply exec_invariant].
Qed.

Lemma reachable_invariant :
  (∀ cap delta random t, __init__ cap None delta random = inr t → P t) →
  ∀ t, reachable t → P t.
Proof.
  intros Hfresh t. induction 1 as [cap data delta random t Hinit | c t Hreach IH].
  - destruct data as [data|]; [| by eapply Hfresh].
    apply init_data in Hinit as (t0 & Ht0 & Hins).
    pose proof (insert_all_invariant data t0
      (init_fresh_wf _ _ _ _ Ht0) (Hfresh _ _ _ _ Ht0)) as HP.
    by rewrite Hins in HP.
  - apply exec_invariant; [by apply reachable_wf | done].
Qed.
End invariant.

Lemma put_entry_frozen t s e : frozen t (put_entry s e t).
Proof.
  pose proof (put_entry_layout t s e) as Hl.
  destruct s as [i idx | idx]; simpl in *; [| done].
  by destruct (levels t !! Z.to_nat i).
Qed.

Lemma insert_at_frozen t s k v : frozen t (insert_at s k v t).
Proof.
  unfold insert_at. cbv zeta.
  pose proof (put_entry_frozen t s (Entry k v true)) as Hl.
  destruct s; exact Hl.
Qed.

Lemma delete_at_frozen t s : frozen t (delete_at s t).
Proof.
  unfold delete_at. cbv zeta.
  pose proof (put_entry_frozen t s Entry0) as Hl.
  destruct s; exact Hl.
Qed.

Lemma frozen_refl t : frozen t t.
Proof. repeat split. Qed.

Lemma frozen_trans t1 t2 t3 : frozen t1 t2 → frozen t2 t3 → frozen t1 t3.
Proof.
  intros (? & ? & ? & ?) (? & ? & ? & ?).
  split; [congruence |]. split; [congruence |]. split; [congruence |].
  by eapply same_layout_trans.
Qed.

Lemma exec_all_frozen cs t : well_formed t → frozen t (exec_all cs t).
Proof.
  intros Hwf. apply (exec_all_invariant (frozen t)); [| | done | apply frozen_refl].
  - intros t' k v s e _ Hfr _ _.
    eapply frozen_trans; [exact Hfr | apply insert_at_frozen].
  - intros t' k s e _ Hfr _.
    eapply frozen_trans; [exact Hfr | apply delete_at_frozen].
Qed.

Lemma reachable_bounds t :
  reachable t →
  num_inserts t ≤ max_inserts t ∧ 0 < max_inserts t ≤ capacity t ∧
  1 ≤ capacity t < 2 ^ 31.
Proof.
  revert t. apply reachable_invariant.
  - intros t k v s e _ (Hnum & Hmax & Hcap) Hfull _.
    destruct (insert_at_layout t s k v) as (_ & -> & -> & _).
    rewrite num_inserts_insert_at. lia.
  - intros t k s e _ (Hnum & Hmax & Hcap) _.
    destruct (delete_at_layout t s) as (_ & -> & -> & _).
    rewrite num_inserts_delete_at. lia.
  - intros cap delta random t
      (Hfits & Hc & Hd & counts & salts & ls & _ & ->)%init_fresh.
    simpl. pose proof (max_inserts_bounds cap delta Hc Hd).
    unfold fits_int in Hfits.
    apply andb_true_iff in Hfits as [_ ?%bool_decide_eq_true]. lia.
Qed.

(** X8. While the table is used, nothing of its layout changes: after
    any sequence of calls the capacity, [delta], [alpha], [beta], the
    sizes, the salts, the bucket counts and the length of every level
    and of the special array are those of the start. *)
Theorem X8_layout_is_fixed t cs :
  reachable t → frozen t (exec_all cs t).
Proof. intros Hwf%reachable_wf. by apply exec_all_frozen. Qed.


(** X10. Inserting a key that iteration does not yield adds exactly this
    pair to the iteration and one occupied slot; all other pairs stay. *)
Theorem X10_insert_new_key t k v t' :
  reachable t → k ∉ keys t → insert k v t = (inr (), t') →
  items t' ≡ₚ (k, v) :: items t ∧
  occupied_slots t' = occupied_slots t + 1.
Proof.
  intros Hwf%reachable_wf Hk Hins.
  pose proof (insert_fresh_key t k v t' Hwf Hk Hins) as Hitems.
  split; [done |]. unfold occupied_slots, len. rewrite Hitems. simpl. lia.
Qed.

(** X11. A call on another key does not change what [get] and [in]
    answer for a key: inserting, deleting or popping [k'] leaves the
    result for every [k ≠ k'] as it was, present or missing. *)
Theorem X11_other_keys_untouched t c k d :
  reachable t → ¬ touches k c →
  (get k d (exec c t)).1 = (get k d t).1 ∧
  (__contains__ k (exec c t)).1 = (__contains__ k t).1.
Proof.
  intros Hwf%reachable_wf Hc.
  apply get_key_view; [done | by apply exec_layout |].
  intros s. by apply exec_key_view.
Qed.

(** X12. Below [max_inserts], [insert] fails to place a key exactly when
    every slot on the key's probe path (its bucket in each level, then
    the probe window of the special array) is occupied by another key;
    then it raises and changes nothing. Otherwise it returns. *)
Theorem X12_placement_failure t k v :
  reachable t → num_inserts t < max_inserts t →
  (insert k v t
     = (inl (RuntimeError "Special array insertion failed; table is full."), t)
   ↔ ∀ s, s ∈ path t k →
       ∃ e, entry_at t s = Some e ∧ occupied e = true ∧ key e ≠ k) ∧
  ((∃ t', insert k v t = (inr (), t'))
   ↔ ∃ s e, s ∈ path t k ∧ entry_at t s = Some e ∧
            (occupied e = false ∨ key e = k)).
Proof.
  intros Hwf%reachable_wf Hroom. rewrite insert_spec by done.
  rewrite bool_decide_eq_false_2 by lia.
  assert (∀ e, free_or_key k e = false ↔ occupied e = true ∧ key e ≠ k)
    as Htest.
  { intros e. unfold free_or_key. destruct (occupied e); simpl.
    - rewrite bool_decide_eq_false. naive_solver.
    - naive_solver. }
  destruct (find_slot _ t (path t k)) as [[s e]|] eqn:Hfind.
  - apply find_first_Some in Hfind as (Hs & He & Hfree). split.
    + split; [done |]. intros Hall.
      destruct (Hall s Hs) as (e' & He' & Hocc & Hkey).
      assert (free_or_key k e' = false) as Hno by (by apply Htest).
      congruence.
    + split; [| by eauto]. intros _. exists s, e.
      split; [done |]. split; [done |].
      unfold free_or_key in Hfree. destruct (occupied e); [| by left].
      right. by apply bool_decide_eq_true in Hfree.
  - split.
    + split; [| done]. intros _ s Hs.
      destruct (path_valid t k s Hwf Hs) as [e He]. exists e.
      split; [done |]. apply Htest. by eapply find_first_None.
    + split; [by intros [? ?] |]. intros (s & e & Hs & He & Hfree).
      pose proof (find_first_None _ _ _ _ _ Hfind Hs He) as Hno.
      apply Htest in Hno as [Hocc Hkey]. destruct Hfree; congruence.
Qed.

(** X13. In every reachable state [clear()] returns; afterwards
    iteration yields nothing, every key is missing, and [len] has gone
    down by the number of slots that were occupied. *)
Theorem X13_clear t :
  reachable t →
  ∃ t', clear t = (inr (), t') ∧ items t' = [] ∧
        (∀ k, __contains__ k t' = (inr false, t')) ∧
        __len__ t' = __len__ t - occupied_slots t.
Proof.
  intros Hreach. destruct (clear_empties t Hreach) as (t' & Hclear & Hitems & Hnum).
  exists t'. repeat split; try done.
  intros k. assert (well_formed t') as Hwf'.
  { pose proof (exec_wf Call_clear t (reachable_wf t Hreach)) as Hwf'.
    simpl in Hwf'. by rewrite Hclear in Hwf'. }
  rewrite contains_spec by done. rewrite absent_find; [done |].
  unfold keys. rewrite Hitems. apply not_elem_of_nil.
Qed.

(** *** The constructor *)


Lemma init_fresh_entries cap delta random t s e :
  __init__ cap None delta random = inr t → entry_at t s = Some e → e = Entry0.
Proof.
  intros (_ & _ & _ & counts & salts & ls & Hb & ->)%init_fresh.
  apply build_levels_spec in Hb as (_ & Hlen & _ & Hlev).
  destruct s as [i idx | idx].
  - intros (_ & _ & level & Hl & He)%entry_at_level. simpl in Hl.
    destruct (lookup_lt_is_Some_2 counts (Z.to_nat i)) as [count Hc].
    { rewrite <- Hlen. by eapply lookup_lt_Some. }
    destruct (Hlev _ _ _ Hc Hl) as [_ ->].
    by apply lookup_replicate in He as [-> _].
  - intros (_ & He)%entry_at_special. simpl in He.
    by apply lookup_replicate in He as [-> _].
Qed.

Lemma insert_all_raises data t err t' :
  well_formed t → insert_all data t = (inl err, t') →
  ∃ msg, err = RuntimeError msg.
Proof.
  revert t. induction data as [|[k v] data IH]; intros t Hwf; [done |].
  cbn [insert_all].
  pose proof (insert_layout t k v Hwf) as Hl.
  erewrite bind_eq by done. revert Hl. rewrite insert_spec by done.
  case_bool_decide; [intros _ [= <- _]; eauto |].
  destruct (find_slot _ t (path t k)) as [[s e]|];
    [| intros _ [= <- _]; eauto].
  intros Hl. apply IH. by eapply wf_layout.
Qed.

Lemma insert_all_num_inserts data t t' :
  well_formed t → insert_all data t = (inr (), t') →
  num_inserts t' = num_inserts t + len data.
Proof.
  revert t. induction data as [|[k v] data IH]; intros t Hwf.
  { intros [= <-]. unfold len. simpl. lia. }
  cbn [insert_all].
  pose proof (insert_layout t k v Hwf) as Hl.
  erewrite bind_eq by done. revert Hl. rewrite insert_spec by done.
  case_bool_decide; [done |].
  destruct (find_slot _ t (path t k)) as [[s e]|]; [| done].
  intros Hl Hrest. rewrite (IH _ (wf_layout _ _ Hl Hwf) Hrest).
  cbn [snd]. rewrite num_inserts_insert_at. unfold len. simpl. lia.
Qed.

(** What [get] finds for [k]: the value in the first slot of the probe
    path that holds [k]. *)
Lemma insert_all_found data t t' k :
  well_formed t → insert_all data t = (inr (), t') →
  value ∘ snd <$> find_slot (holds_key k) t' (path t' k) =
  foldl (λ acc kv, if decide (kv.1 = k) then Some kv.2 else acc)
    (value ∘ snd <$> find_slot (holds_key k) t (path t k)) data.
Proof.
  revert t. induction data as [|[k0 v0] data IH]; intros t Hwf.
  { by intros [= <-]. }
  cbn [insert_all].
  pose proof (insert_layout t k0 v0 Hwf) as Hl.
  erewrite bind_eq by done. revert Hl. rewrite insert_spec by done.
  case_bool_decide; [done |].
  destruct (find_slot _ t (path t k0)) as [[s e]|] eqn:Hfind; [| done].
  cbn [snd]. intros Hl Hrest.
  rewrite (IH _ (wf_layout _ _ Hl Hwf) Hrest). simpl. f_equal.
  rewrite (path_layout _ _ _ Hl).
  destruct (decide (k0 = k)) as [-> | Hne].
  - by rewrite (find_after_insert _ _ v0 _ _ _ Hfind).
  - apply find_key_view. intros s'.
    apply find_first_Some in Hfind as (_ & He & Hfree).
    by eapply insert_at_key_view.
Qed.


(** X15. The constructor checks the capacity, then [delta]: a capacity
    below 1 raises the capacity error whatever [delta] is, a [delta]
    outside the open interval (0, 1) raises the [delta] error, and
    these are the only ways in which it raises [ValueError]. *)
Theorem X15_constructor_validation cap data delta random :
  fits_int cap = true →
  (cap < 1 → __init__ cap data delta random
               = inl (ValueError "Capacity must be at least 1.")) ∧
  (1 ≤ cap → ¬ (0 < delta < 1)%R →
     __init__ cap data delta random
       = inl (ValueError "Delta must be between 0 and 1.")) ∧
  (1 ≤ cap → (0 < delta < 1)%R →
     ∀ msg, __init__ cap data delta random ≠ inl (ValueError msg)).
Proof.
  intros Hfits. split; [| split].
  - intros Hc. unfold __init__. rewrite Hfits. simpl.
    by rewrite bool_decide_eq_true_2.
  - intros Hc Hd. unfold __init__. rewrite Hfits. simpl.
    rewrite bool_decide_eq_false_2 by lia.
    destruct (Rlt_dec 0 delta); [| done].
    destruct (Rlt_dec delta 1); [| done]. lra.
  - intros Hc Hd msg.
    assert (cap < 2 ^ 31) as Hlt.
    { unfold fits_int in Hfits.
      by apply andb_true_iff in Hfits as [_ ?%bool_decide_eq_true]. }
    destruct (init_total cap delta random (conj Hc Hlt) Hd) as [t0 Ht0].
    destruct data as [data|]; [| by rewrite Ht0].
    pose proof (init_fresh_wf _ _ _ _ Ht0) as Hwf.
    revert Ht0. unfold __init__. rewrite Hfits. simpl.
    rewrite bool_decide_eq_false_2 by lia.
    destruct (Rlt_dec 0 delta); [| lra].
    destruct (Rlt_dec delta 1); [| lra].
    destruct (py_floordiv _ _); [done |].
    destruct (build_levels _ _ _ _ _ _) as [[counts salts] ls].
    intros [= Ht0]. rewrite Ht0.
    destruct (insert_all data t0) as [[err | []] t'] eqn:Hins; [| done].
    destruct (insert_all_raises _ _ _ _ Hwf Hins) as [msg' ->]. done.
Qed.

(** X16. A table constructed from a list of pairs has [len] equal to the
    length of the list (repeated keys are counted each time), and [get]
    returns for every key the value of the last pair with this key, or
    raises [KeyError] when no pair has it. *)
Theorem X16_constructor_with_data cap data delta random t k :
  __init__ cap (Some data) delta random = inr t →
  __len__ t = len data ∧
  get k None t =
    (match lookup_last k data with
     | Some v => inr v
     | None => inl KeyError
     end, t).
Proof.
  intros (t0 & Ht0 & Hins)%init_data.
  pose proof (init_fresh_wf _ _ _ _ Ht0) as Hwf0.
  pose proof (init_fresh_items _ _ _ _ Ht0) as [Hitems Hnum].
  pose proof (insert_all_layout data t0 Hwf0) as Hl. rewrite Hins in Hl.
  split.
  - unfold __len__. rewrite (insert_all_num_inserts _ _ _ Hwf0 Hins). lia.
  - rewrite get_spec by (by eapply wf_layout).
    pose proof (insert_all_found data t0 t k Hwf0 Hins) as Hfound.
    rewrite (absent_find t0 k) in Hfound
      by (unfold keys; rewrite Hitems; apply not_elem_of_nil).
    unfold lookup_last. simpl in Hfound. rewrite <- Hfound.
    by destruct (find_slot _ t (path t k)) as [[s e]|].
Qed.

(** *** The length of a scan *)

Lemma exp_4_lower : (32 < exp 4)%R.
Proof.
  pose proof (exp_ineq1_le (/ 4)) as Ha.
  assert (exp 4 = (exp (/ 4) * exp (/ 4) * (exp (/ 4) * exp (/ 4)))
                  * (exp (/ 4) * exp (/ 4) * (exp (/ 4) * exp (/ 4)))
                  * ((exp (/ 4) * exp (/ 4) * (exp (/ 4) * exp (/ 4)))
                  * (exp (/ 4) * exp (/ 4) * (exp (/ 4) * exp (/ 4)))))%R
    as ->.
  { rewrite <- !exp_plus. f_equal. lra. }
  set (a := exp (/ 4)) in *. clearbody a.
  assert (25 / 16 <= a * a)%R as Hb by nra.
  set (b := (a * a)%R) in *. clearbody b.
  assert (625 / 256 <= b * b)%R as Hc by nra.
  set (c := (b * b)%R) in *. clearbody c.
  assert (59 / 10 <= c * c)%R as Hd by nra.
  set (d := (c * c)%R) in *. clearbody d. nra.
Qed.

Lemma ln_2_bounds : (0 < ln 2 < 1)%R.
Proof.
  split; [pose proof ln_lt_2; lra |].
  rewrite <- (ln_exp 1). apply ln_increasing; [lra |].
  pose proof (exp_ineq1 1). lra.
Qed.

Lemma probe_limit_bounds t :
  1 ≤ capacity t → capacity t + 1 < 2 ^ 31 → 1 ≤ probe_limit t ≤ 4.
Proof.
  intros Hc Hmax. unfold probe_limit, libm.log. split; [lia |].
  apply Z.max_lub; [lia |].
  assert (wrap_int (capacity t + 1) = capacity t + 1) as ->.
  { unfold wrap_int. rewrite Z.mod_small; lia. }
  set (c := capacity t + 1) in *.
  assert (2 <= IZR c <= 2 ^ 31)%R as [Hlo Hhi].
  { split; [apply IZR_le; lia |].
    replace (2 ^ 31)%R with (IZR (2 ^ 31)) by (simpl; lra).
    apply IZR_le. lia. }
  pose proof ln_2_bounds as Hln2.
  assert (ln (IZR c) <= 31)%R as Hln.
  { assert (ln (2 ^ 31) = INR 31 * ln 2)%R as Hpow by (apply ln_pow; lra).
    assert (INR 31 = 31)%R as H31 by (simpl; lra).
    destruct Hhi as [Hlt | ->]; [| nra].
    assert (ln (IZR c) < ln (2 ^ 31))%R by (apply ln_increasing; lra). nra. }
  assert (0 < ln (IZR c))%R as Hpos.
  { rewrite <- ln_1. apply ln_increasing; lra. }
  assert (ln (ln (IZR c) + 1) < 4)%R as Hx.
  { rewrite <- (ln_exp 4). apply ln_increasing; [lra |].
    pose proof exp_4_lower. lra. }
  rewrite int_ceil.
  pose proof (Int_part_bounds (- ln (ln (IZR c) + 1))) as [_ Hu].
  assert (-5 < Int_part (- ln (ln (IZR c) + 1))); [| lia].
  apply lt_IZR. lra.
Qed.

Lemma level_path_length t k :
  0 ≤ beta t → len (level_path t k) = len (levels t) * beta t.
Proof.
  intros Hbeta. unfold level_path, range, len. rewrite Z.sub_0_r.
  unfold seqZ. rewrite Nat2Z.id, <- list_fmap_compose.
  generalize (length (levels t)) as j. intros j.
  generalize 0%nat as j0.
  induction j as [|j IH]; intros j0; [simpl; lia |].
  cbn [seq fmap list_fmap mjoin list_join].
  rewrite length_app, Nat2Z.inj_add, IH.
  unfold compose, bucket_slots, range at 1.
  rewrite length_fmap, length_seqZ. lia.
Qed.

Lemma find_slot_agree test t t' ss :
  (∀ s, s ∈ ss → entry_at t' s = entry_at t s) →
  find_slot test t' ss = find_slot test t ss.
Proof. apply find_first_ext. Qed.

Lemma path_length t k :
  0 ≤ beta t →
  len (path t k) = len (levels t) * beta t + probe_limit t.
Proof.
  intros Hbeta. unfold path, len. rewrite length_app.
  pose proof (level_path_length t k Hbeta) as Hl.
  unfold len in Hl. unfold special_path, range.
  rewrite length_fmap, length_seqZ. unfold probe_limit in *. lia.
Qed.

(** X17. A scan is local and short. [get], [insert] and [del] of a key
    read and write only the slots of the key's probe path, its bucket
    in each level and the probed slots of the special array: on two
    tables of the same layout and counter that agree on these slots
    they return or raise the same and leave the same entries in these
    slots, and they leave every other slot as it is. The path has
    [len(levels) * beta + probe_limit] slots, and for a capacity below
    [2 ** 31 - 1] the probe limit is between 1 and 4. *)
Theorem X17_scans_are_local t t' k v d :
  reachable t → reachable t' → same_layout t t' →
  num_inserts t' = num_inserts t →
  (∀ s, s ∈ path t k → entry_at t' s = entry_at t s) →
  capacity t + 1 < 2 ^ 31 →
  ((get k d t').1 = (get k d t).1 ∧
   (insert k v t').1 = (insert k v t).1 ∧
   (__delitem__ k t').1 = (__delitem__ k t).1) ∧
  (∀ s, s ∈ path t k →
     entry_at (insert k v t').2 s = entry_at (insert k v t).2 s ∧
     entry_at (__delitem__ k t').2 s = entry_at (__delitem__ k t).2 s) ∧
  (∀ s, s ∉ path t k →
     entry_at (insert k v t).2 s = entry_at t s ∧
     entry_at (__delitem__ k t).2 s = entry_at t s) ∧
  len (path t k) = len (levels t) * beta t + probe_limit t ∧
  1 ≤ probe_limit t ≤ 4.
Proof.
  intros Hreach Hreach' Hsame Hnum Hagree Hmax.
  pose proof (reachable_wf t Hreach) as Hwf.
  pose proof (reachable_wf t' Hreach') as Hwf'.
  pose proof (path_layout _ _ k Hsame) as Hpath.
  assert (max_inserts t' = max_inserts t) as Hmi by apply Hsame.
  assert (∀ test, find_slot test t' (path t k) = find_slot test t (path t k))
    as Hfind by (intros test; by apply find_slot_agree).
  rewrite !get_spec, !insert_spec, !delitem_spec by done.
  rewrite Hpath, !Hfind, Hnum, Hmi.
  split; [| split; [| split; [| split]]].
  - split; [done |]. split.
    + case_bool_decide; [done |].
      by destruct (find_slot _ t (path t k)) as [[s e]|].
    + by destruct (find_slot _ t (path t k)) as [[s e]|].
  - intros s0 Hs0. split.
    + case_bool_decide; [by apply Hagree |].
      destruct (find_slot _ t (path t k)) as [[s e]|] eqn:Hf;
        [| by apply Hagree].
      apply find_first_Some in Hf as (Hs & He & _). cbn [snd].
      rewrite !insert_at_entry.
      rewrite (entry_at_put _ _ _ e) by (by rewrite Hagree).
      rewrite (entry_at_put _ _ _ e) by done.
      destruct (decide (s = s0)); [done | by apply Hagree].
    + destruct (find_slot _ t (path t k)) as [[s e]|] eqn:Hf;
        [| by apply Hagree].
      apply find_first_Some in Hf as (Hs & He & _). cbn [snd].
      rewrite !delete_at_entry.
      rewrite (entry_at_put _ _ _ e) by (by rewrite Hagree).
      rewrite (entry_at_put _ _ _ e) by done.
      destruct (decide (s = s0)); [done | by apply Hagree].
  - intros s0 Hs0. split.
    + case_bool_decide; [done |].
      destruct (find_slot _ t (path t k)) as [[s e]|] eqn:Hf; [| done].
      apply find_first_Some in Hf as (Hs & He & _). cbn [snd].
      rewrite insert_at_entry, (entry_at_put _ _ _ e) by done.
      rewrite decide_False; [done |]. by intros <-.
    + destruct (find_slot _ t (path t k)) as [[s e]|] eqn:Hf; [| done].
      apply find_first_Some in Hf as (Hs & He & _). cbn [snd].
      rewrite delete_at_entry, (entry_at_put _ _ _ e) by done.
      rewrite decide_False; [done |]. by intros <-.
  - apply path_length, (wf_beta _ Hwf).
  - pose proof (reachable_bounds t Hreach) as (_ & _ & Hcap & _).
    by apply probe_limit_bounds.
Qed.

Lemma init_with_data cap data delta random t0 t :
  __init__ cap None delta random = inr t0 →
  insert_all data t0 = (inr (), t) →
  __init__ cap (Some data) delta random = inr t.
Proof.
  unfold __init__.
  destruct (negb (fits_int cap)); [done |].
  case_bool_decide; [done |].
  destruct (Rlt_dec 0 delta); [| done].
  destruct (Rlt_dec delta 1); [| done].
  destruct (py_floordiv _ _) as [| total_buckets]; [done |].
  destruct (build_levels _ _ _ _ _ _) as [[counts salts] ls].
  intros [= <-] Hins. by rewrite Hins.
Qed.

(** *** Inserting and deleting again *)

Lemma reachable_free_default t : reachable t → free_default t.
Proof.
  revert t. apply reachable_invariant.
  - intros t k v s e _ Hfree _ (_ & He & _)%find_first_Some s' e'.
    rewrite insert_at_entry, (entry_at_put _ _ _ _ _ He).
    destruct (decide (s = s')) as [<- | ?]; [| apply Hfree].
    by intros [= <-] ?.
  - intros t k s e _ Hfree (_ & He & _)%find_first_Some s' e'.
    rewrite delete_at_entry, (entry_at_put _ _ _ _ _ He).
    destruct (decide (s = s')) as [<- | ?]; [| apply Hfree].
    by intros [= <-] _.
  - intros cap delta random t Hinit s e He _.
    by eapply init_fresh_entries.
Qed.

Lemma table_ext (t t' : Table_) :
  capacity t = capacity t' → num_inserts t = num_inserts t' →
  special_occupancy t = special_occupancy t' →
  max_inserts t = max_inserts t' → alpha t = alpha t' → beta t = beta t' →
  special_size t = special_size t' → primary_size t = primary_size t' →
  special_salt t = special_salt t' → delta t = delta t' →
  level_salts t = level_salts t' →
  level_bucket_counts t = level_bucket_counts t' →
  levels t = levels t' → special_array t = special_array t' →
  t = t'.
Proof. destruct t, t'. cbn. intros. by subst. Qed.

Lemma delete_insert_at t s k v :
  entry_at t s = Some Entry0 → delete_at s (insert_at s k v t) = t.
Proof.
  destruct s as [i idx | idx].
  - intros (Hi & Hidx & level & Hl & He)%entry_at_level.
    unfold delete_at, insert_at, put_entry. cbv zeta. rewrite Hl.
    cbn [levels set_levels set_num_inserts].
    rewrite list_lookup_insert_eq by (by eapply lookup_lt_Some).
    apply table_ext;
      cbn [capacity num_inserts special_occupancy max_inserts alpha beta
           special_size primary_size special_salt delta level_salts
           level_bucket_counts levels special_array
           set_levels set_num_inserts]; try reflexivity; [lia |].
    rewrite !list_insert_insert_eq.
    rewrite (list_insert_id level) by done.
    by rewrite list_insert_id.
  - intros (Hidx & He)%entry_at_special.
    unfold delete_at, insert_at, put_entry. cbv zeta.
    apply table_ext;
      cbn [capacity num_inserts special_occupancy max_inserts alpha beta
           special_size primary_size special_salt delta level_salts
           level_bucket_counts levels special_array
           set_special_array set_special_occupancy set_num_inserts];
      try reflexivity; [lia | lia |].
    by rewrite list_insert_insert_eq, list_insert_id.
Qed.

(** X18. Inserting a key that iteration does not yield and deleting it
    again gives back the very same table: slots, counters and all. *)
Theorem X18_insert_then_delete t k v t' :
  reachable t → k ∉ keys t → insert k v t = (inr (), t') →
  __delitem__ k t' = (inr (), t).
Proof.
  intros Hreach Hk. pose proof (reachable_wf t Hreach) as Hwf.
  rewrite insert_spec by done. case_bool_decide; [done |].
  destruct (find_slot _ t (path t k)) as [[s e]|] eqn:Hfind; [| done].
  intros [= <-].
  pose proof (insert_at_layout t s k v) as Hl.
  rewrite delitem_spec by (by eapply wf_layout).
  rewrite (path_layout _ _ _ Hl).
  rewrite (find_after_insert _ _ v _ _ _ Hfind).
  apply find_first_Some in Hfind as (_ & He & Hfree).
  assert (occupied e = false) as Hocc.
  { destruct (occupied e) eqn:Hocc; [| done]. exfalso. apply Hk.
    unfold free_or_key in Hfree. rewrite Hocc in Hfree. simpl in Hfree.
    apply bool_decide_eq_true in Hfree as <-.
    apply list_elem_of_fmap. exists (key e, value e). split; [done |].
    by eapply entry_at_items. }
  rewrite (reachable_free_default t Hreach s e He Hocc) in He.
  by rewrite delete_insert_at.
Qed.

(** *** Tables that are only inserted into *)

Lemma find_slot_stable test t t' ss h eh eh' :
  find_slot test t ss = Some (h, eh) →
  entry_at t' h = Some eh' → test eh' = true →
  (∀ s e, entry_at t s = Some e → test e = false →
     ∃ e', entry_at t' s = Some e' ∧ test e' = false) →
  (∀ s, entry_at t s = None → entry_at t' s = None) →
  find_slot test t' ss = Some (h, eh').
Proof.
  unfold find_slot. intros Hfind Hh Htest Hfalse Hnone.
  induction ss as [|s ss IH]; [done |]. simpl in *.
  destruct (entry_at t s) as [e|] eqn:He.
  - destruct (test e) eqn:Hte.
    + injection Hfind as -> ->. by rewrite Hh, Htest.
    + destruct (Hfalse s e He Hte) as (e' & -> & ->). by apply IH.
  - rewrite (Hnone s He). by apply IH.
Qed.

Lemma free_or_key_other k k' e :
  k' ≠ k → free_or_key k e = true → holds_key k' e = true → False.
Proof.
  unfold free_or_key, holds_key. intros Hne.
  destruct (occupied e); simpl; [| done].
  intros Hk%bool_decide_eq_true Hk'%bool_decide_eq_true. congruence.
Qed.

Lemma insert_at_compact t k v s e :
  find_slot (free_or_key k) t (path t k) = Some (s, e) →
  compact t → compact (insert_at s k v t).
Proof.
  intros Hfind Hcompact k' h eh.
  pose proof (find_first_Some _ _ _ _ _ Hfind) as (_ & He & Hfree).
  pose proof (insert_at_layout t s k v) as Hl.
  rewrite !(path_layout _ _ _ Hl).
  assert (∀ s', entry_at (insert_at s k v t) s' =
                if decide (s = s') then Some (Entry k v true)
                else entry_at t s') as Hat.
  { intros s'. by rewrite insert_at_entry, (entry_at_put _ _ _ _ _ He). }
  destruct (decide (k' = k)) as [-> | Hne].
  - rewrite (find_after_insert _ _ v _ _ _ Hfind). intros [= <- <-].
    apply (find_slot_stable _ t _ _ s e); [done | | | |].
    + by rewrite Hat, decide_True.
    + unfold free_or_key. simpl. by rewrite bool_decide_eq_true_2.
    + intros s' e' He' Hno. exists e'. split; [| done].
      rewrite Hat, decide_False; [done |]. intros <-. congruence.
    + intros s' He'. rewrite Hat, decide_False; [done |].
      intros <-. congruence.
  - intros Hholds.
    pose proof (find_first_Some _ _ _ _ _ Hholds) as (_ & Heh & Hkey).
    rewrite Hat in Heh.
    destruct (decide (s = h)) as [<- | Hsh].
    { injection Heh as <-. unfold holds_key in Hkey. simpl in Hkey.
      by rewrite bool_decide_eq_false_2 in Hkey. }
    assert (find_slot (holds_key k') t (path t k') = Some (h, eh)) as Hold.
    { apply (find_slot_stable _ (insert_at s k v t) _ _ h eh);
        [done | done | done | |].
      - intros s' e'. rewrite Hat.
        destruct (decide (s = s')) as [<- | ?]; [| by eauto].
        intros _ _. exists e. split; [done |].
        destruct (holds_key k' e) eqn:Hh; [| done].
        by destruct (free_or_key_other k k' e Hne Hfree Hh).
      - intros s'. rewrite Hat. by destruct (decide (s = s')). }
    apply Hcompact in Hold.
    apply (find_slot_stable _ t _ _ h eh); [done | | | |].
    + by rewrite Hat, decide_False.
    + by apply find_first_Some in Hold as (_ & _ & ?).
    + intros s' e' He' Hno. rewrite Hat.
      destruct (decide (s = s')) as [<- | ?]; [| by eauto].
      eexists. split; [done |]. unfold free_or_key. simpl.
      by rewrite bool_decide_eq_false_2.
    + intros s' He'. rewrite Hat, decide_False; [done |].
      intros <-. congruence.
Qed.

(** What an [insert] that returns does to the iteration when the slot
    it writes is occupied: the pair of the key gets the new value in
    place. *)
Lemma insert_at_occupied_keys t s e k v :
  entry_at t s = Some e → occupied e = true → key e = k →
  keys (insert_at s k v t) = keys t.
Proof.
  intros He Hocc Hkey. unfold keys. rewrite items_insert_at.
  destruct (items_put_entry t s e (Entry k v true) He) as (r1 & r2 & -> & ->).
  unfold entry_items. rewrite !filter_cons, !filter_nil. simpl.
  rewrite decide_True by done. simpl.
  rewrite !fmap_app, !fmap_cons. simpl. by rewrite Hkey.
Qed.

Lemma compact_insert_cases t k s e :
  compact t → on_path t →
  find_slot (free_or_key k) t (path t k) = Some (s, e) →
  (occupied e = true ∧ key e = k ∧ k ∈ keys t) ∨
  (occupied e = false ∧ k ∉ keys t).
Proof.
  intros Hcompact Hon Hfind.
  pose proof (find_first_Some _ _ _ _ _ Hfind) as (_ & He & Hfree).
  destruct (occupied e) eqn:Hocc.
  - left. unfold free_or_key in Hfree. rewrite Hocc in Hfree. simpl in Hfree.
    apply bool_decide_eq_true in Hfree. repeat split; [done |].
    apply list_elem_of_fmap. exists (key e, value e).
    split; [done |]. by eapply entry_at_items.
  - right. split; [done |]. intros Hk.
    destruct (present_find t k Hon Hk) as (h & eh & Hh).
    pose proof (Hcompact _ _ _ Hh) as Hh'. rewrite Hfind in Hh'.
    injection Hh' as <- <-.
    apply find_holder in Hh as (_ & Hocc' & _). congruence.
Qed.

Lemma insert_tidy t k v : tidy t → tidy (insert k v t).2.
Proof.
  intros (Hwf & Hon & Hcompact & Hdup).
  pose proof (insert_layout t k v Hwf) as Hl. revert Hl.
  rewrite insert_spec by done. case_bool_decide; [done |].
  destruct (find_slot _ t (path t k)) as [[s e]|] eqn:Hfind; [| done].
  cbn [snd]. intros Hl.
  split; [by eapply wf_layout |].
  split; [by eapply insert_at_on_path |].
  split; [by eapply insert_at_compact |].
  pose proof (find_first_Some _ _ _ _ _ Hfind) as (_ & He & _).
  destruct (compact_insert_cases t k s e Hcompact Hon Hfind)
    as [(Hocc & Hkey & _) | (Hocc & Hk)].
  - by rewrite (insert_at_occupied_keys t s e k v He Hocc Hkey).
  - assert (insert k v t = (inr (), insert_at s k v t)) as Hins.
    { rewrite insert_spec by done. rewrite bool_decide_eq_false_2 by done.
      by rewrite Hfind. }
    unfold keys.
    rewrite (insert_fresh_key t k v _ Hwf Hk Hins), fmap_cons.
    by apply NoDup_cons.
Qed.

Lemma insert_all_tidy data t : tidy t → tidy (insert_all data t).2.
Proof.
  revert t. induction data as [|[k v] data IH]; intros t Ht; [done |].
  cbn [insert_all]. pose proof (insert_tidy t k v Ht) as Ht'.
  erewrite bind_eq by done.
  destruct (insert k v t) as [[err | []] t']; [done |]. by apply IH.
Qed.

Lemma init_tidy cap data delta random t :
  __init__ cap data delta random = inr t → tidy t.
Proof.
  assert (∀ t0, __init__ cap None delta random = inr t0 → tidy t0) as Hfresh.
  { intros t0 Ht0.
    pose proof (init_fresh_items _ _ _ _ Ht0) as [Hitems _].
    split; [by eapply init_fresh_wf |].
    split; [apply reachable_on_path; by eapply reachable_init |].
    split.
    - intros k s e Hfind. apply find_holder in Hfind as (_ & _ & _ & Hin).
      rewrite Hitems in Hin. by apply elem_of_nil in Hin.
    - unfold keys. rewrite Hitems. apply NoDup_nil_2. }
  destruct data as [data|]; [| apply Hfresh].
  intros (t0 & Ht0 & Hins)%init_data.
  pose proof (insert_all_tidy data t0 (Hfresh t0 Ht0)) as Ht.
  by rewrite Hins in Ht.
Qed.

Lemma exec_all_tidy cs t :
  Forall no_delete cs → tidy t → tidy (exec_all cs t).
Proof.
  revert t. induction cs as [|c cs IH]; intros t Hcs Ht; [done |].
  apply Forall_cons in Hcs as [Hc Hcs]. simpl. apply IH; [done |].
  destruct c as [k v | k d | k | k | k d |]; simpl in *; try done.
  - by apply insert_tidy.
  - rewrite get_spec by apply Ht. done.
  - rewrite contains_spec by apply Ht. done.
Qed.

(** X19. As long as nothing is deleted, the table is a map: after the
    constructor and any sequence of [insert], [get] and [in] calls, no
    key is yielded twice by the iteration, and an [insert] of a key
    that is in the table returns with the same keys in the same order
    and the same number of occupied slots (the value is replaced in
    place). *)
Theorem X19_insert_only_is_a_map cap data delta random t0 cs :
  __init__ cap data delta random = inr t0 → Forall no_delete cs →
  NoDup (keys (exec_all cs t0)) ∧
  ∀ k v t', k ∈ keys (exec_all cs t0) →
    insert k v (exec_all cs t0) = (inr (), t') →
    keys t' = keys (exec_all cs t0) ∧
    occupied_slots t' = occupied_slots (exec_all cs t0) ∧
    get k None t' = (inr v, t').
Proof.
  intros Hinit Hcs.
  destruct (exec_all_tidy cs t0 Hcs (init_tidy _ _ _ _ _ Hinit))
    as (Hwf & Hon & Hcompact & Hdup).
  set (t := exec_all cs t0) in *. split; [done |].
  intros k v t' Hk Hins.
  pose proof (insert_then_get t k v t' None Hwf Hins) as Hget.
  revert Hins. rewrite insert_spec by done. case_bool_decide; [done |].
  destruct (find_slot _ t (path t k)) as [[s e]|] eqn:Hfind; [| done].
  intros [= <-].
  pose proof (find_first_Some _ _ _ _ _ Hfind) as (_ & He & _).
  destruct (compact_insert_cases t k s e Hcompact Hon Hfind)
    as [(Hocc & Hkey & _) | (_ & Hno)]; [| done].
  split; [by eapply insert_at_occupied_keys |]. split; [| done].
  rewrite (occupied_slots_insert_at _ _ _ _ _ He), Hocc. lia.
Qed.

(** X20. When no key is yielded twice by the iteration, a [del] that
    returns removes the key: afterwards [get] raises [KeyError], [in]
    is false, and still no key is yielded twice. *)
Theorem X20_delete_removes_unique_key t k t' :
  reachable t → NoDup (keys t) → __delitem__ k t = (inr (), t') →
  (k ∉ keys t') ∧ NoDup (keys t') ∧
  get k None t' = (inl KeyError, t') ∧
  __contains__ k t' = (inr false, t').
Proof.
  intros Hreach Hdup. pose proof (reachable_wf t Hreach) as Hwf.
  pose proof (delitem_layout t k Hwf) as Hl. revert Hl.
  rewrite delitem_spec by done.
  destruct (find_slot _ t (path t k)) as [[s e]|] eqn:Hfind; [| done].
  cbn [snd]. intros Hl [= <-].
  apply find_holder in Hfind as (He & Hocc & Hkey & _).
  pose proof (items_delete_at_perm t s e He Hocc) as Hperm.
  assert (keys t ≡ₚ k :: keys (delete_at s t)) as Hkeys.
  { unfold keys. rewrite Hperm, fmap_cons. simpl. by rewrite Hkey. }
  rewrite Hkeys in Hdup. apply NoDup_cons in Hdup as [Hk Hdup'].
  split; [done |]. split; [done |].
  rewrite get_spec, contains_spec by (by eapply wf_layout).
  by rewrite absent_find.
Qed.

Lemma NoDup_keys_functional (l : list (object * object)) k v v' :
  NoDup l.*1 → (k, v) ∈ l → (k, v') ∈ l → v = v'.
Proof.
  induction l as [|[k0 v0] l IH]; [by intros _ ?%elem_of_nil |].
  rewrite fmap_cons. simpl. intros [Hk0 Hdup]%NoDup_cons.
  intros [Heq | Hin]%elem_of_cons [Heq' | Hin']%elem_of_cons.
  - congruence.
  - injection Heq as -> ->.
    exfalso. apply Hk0, list_elem_of_fmap. by exists (k0, v').
  - injection Heq' as -> ->.
    exfalso. apply Hk0, list_elem_of_fmap. by exists (k0, v).
  - by apply IH.
Qed.

(** X21. A table constructed from a list of pairs holds exactly the
    pairs of a dictionary built from the list: iteration yields no key
    twice, and it yields the pair [(k, v)] exactly when [v] is the
    value of the last pair with the key [k]. *)
Theorem X21_constructor_builds_the_dictionary cap data delta random t :
  __init__ cap (Some data) delta random = inr t →
  NoDup (keys t) ∧
  ∀ k v, (k, v) ∈ items t ↔ lookup_last k data = Some v.
Proof.
  intros Hinit.
  destruct (init_tidy _ _ _ _ _ Hinit) as (Hwf & Hon & _ & Hdup).
  split; [done |]. intros k v.
  apply init_data in Hinit as (t0 & Ht0 & Hins).
  pose proof (init_fresh_wf _ _ _ _ Ht0) as Hwf0.
  pose proof (init_fresh_items _ _ _ _ Ht0) as [Hitems _].
  pose proof (insert_all_found data t0 t k Hwf0 Hins) as Hfound.
  rewrite (absent_find t0 k) in Hfound
    by (unfold keys; rewrite Hitems; apply not_elem_of_nil).
  simpl in Hfound. fold (lookup_last k data) in Hfound.
  rewrite <- Hfound. split.
  - intros Hkv.
    destruct (present_find t k Hon) as (s & e & Hfind).
    { apply list_elem_of_fmap. by exists (k, v). }
    rewrite Hfind. simpl. f_equal.
    apply find_holder in Hfind as (_ & _ & _ & Hin).
    symmetry. by eapply NoDup_keys_functional.
  - destruct (find_slot _ t (path t k)) as [[s e]|] eqn:Hfind; [| done].
    simpl. intros [= <-]. by apply find_holder in Hfind as (_ & _ & _ & Hin).
Qed.

(** X22. The exceptions of each method, on every table that the
    constructor and the methods produce: [insert] raises only its two
    [RuntimeError]s, [get] and [pop] raise only [KeyError] and only
    when no default is given, [del] raises only [KeyError], and [in]
    and [clear] never raise. *)
Theorem X22_exceptions_by_method t c err :
  reachable t → outcome c t = Some err →
  match c with
  | Call_insert _ _ =>
      err = RuntimeError "Hash table is full." ∨
      err = RuntimeError "Special array insertion failed; table is full."
  | Call_get _ d | Call_pop _ d => err = KeyError ∧ d = None
  | Call_delitem _ => err = KeyError
  | Call_contains _ | Call_clear => False
  end.
Proof.
  intros Hreach. pose proof (reachable_wf t Hreach) as Hwf.
  destruct c as [k v | k d | k | k | k d |]; simpl.
  - rewrite insert_spec by done. case_bool_decide.
    + intros [= <-]. by left.
    + destruct (find_slot _ t (path t k)) as [[s e]|]; [done |].
      intros [= <-]. by right.
  - rewrite get_spec by done.
    destruct (find_slot _ t (path t k)) as [[s e]|]; [done |].
    destruct d; [done |]. by intros [= <-].
  - by rewrite contains_spec.
  - rewrite delitem_spec by done.
    destruct (find_slot _ t (path t k)) as [[s e]|]; [done |].
    by intros [= <-].
  - rewrite pop_spec by done.
    destruct (find_slot _ t (path t k)) as [[s e]|]; [done |].
    destruct d; [done |]. by intros [= <-].
  - destruct (clear_empties t Hreach) as (t' & -> & _). done.
Qed.

End theory.

(** ** Runs on [FunnelHashTable(capacity=5, delta=0.5)] *)

Module Runs.
Import Example.

Lemma init_table0 : __init__ PyNone hash 5 None (1 / 2) lcg = inr table0.
Proof.
  unfold __init__.
  change (negb (fits_int 5)) with false. cbv iota.
  rewrite bool_decide_eq_false_2 by lia.
  destruct (Rlt_dec 0 (1 / 2)); [| lra].
  destruct (Rlt_dec (1 / 2) 1); [| lra].
  rewrite max_inserts_5_half, alpha_half, beta_half, special_size_5_half.
  change (py_floordiv (5 - 1) 2) with (inr (A:=Exn) 2).
  cbv beta iota.
  change (range 0 14) with (0 :: 1 :: range 2 14).
  rewrite build_levels_cons by lia. cbv zeta.
  rewrite a_0_5_half. change (2 - Z.min 1 2) with 1.
  rewrite build_levels_cons by lia. cbv zeta.
  pose proof (a_i_pos (derive.a1 2 14) 1) as Ha.
  rewrite (Z.min_r _ 1) by lia. change (1 - 1) with 0.
  rewrite build_levels_break by lia.
  reflexivity.
Qed.

Lemma reachable_table0 : reachable table0.
Proof. eapply reachable_init, init_table0. Qed.

(** The README's table: [FunnelHashTable(capacity=30)] has four levels of
    one bucket of seven slots and a special array of two slots, and two
    insertions land in the first two slots of level 1. *)
Lemma init_table30 : __init__ PyNone hash 30 None (1 / 10) lcg = inr table30.
Proof.
  unfold __init__.
  change (negb (fits_int 30)) with false. cbv iota.
  rewrite bool_decide_eq_false_2 by lia.
  destruct (Rlt_dec 0 (1 / 10)); [| lra].
  destruct (Rlt_dec (1 / 10) 1); [| lra].
  rewrite max_inserts_30_tenth, alpha_tenth, beta_tenth, special_size_30_tenth.
  change (py_floordiv (30 - 2) 7) with (inr (A:=Exn) 4).
  cbv beta iota.
  change (range 0 24) with (0 :: 1 :: 2 :: 3 :: range 4 24).
  rewrite build_levels_cons by lia. cbv zeta.
  rewrite a_i_30_tenth by lia. change (4 - Z.min 1 4) with 3.
  rewrite build_levels_cons by lia. cbv zeta.
  rewrite a_i_30_tenth by lia. change (3 - Z.min 1 3) with 2.
  rewrite build_levels_cons by lia. cbv zeta.
  rewrite a_i_30_tenth by lia. change (2 - Z.min 1 2) with 1.
  rewrite build_levels_cons by lia. cbv zeta.
  pose proof (a_i_pos (derive.a1 4 24) 3) as Ha.
  rewrite (Z.min_r _ 1) by lia. change (1 - 1) with 0.
  rewrite build_levels_break by lia.
  reflexivity.
Qed.

Lemma readme_run :
  let t := exec_all [Call_insert (PyInt 1) (PyInt 10);
                     Call_insert (PyInt 2) (PyInt 20)] table30 in
  __len__ t = 2 ∧
  __contains__ (PyInt 1) t = (inr true, t) ∧
  __contains__ (PyInt 2) t = (inr true, t) ∧
  entry_at t (LevelSlot 0 0) = Some (Entry (PyInt 1) (PyInt 10) true) ∧
  entry_at t (LevelSlot 0 1) = Some (Entry (PyInt 2) (PyInt 20) true).
Proof. repeat split; vm_compute; reflexivity. Qed.

(** Instances of the general theorems on this table. *)

Lemma C1_witness :
  get (PyInt 1) None table_after_other_calls
    = (inr (PyInt 20), table_after_other_calls) ∧
  __contains__ (PyInt 1) table_after_other_calls
    = (inr true, table_after_other_calls).
Proof.
  set (t := exec_all [Call_insert (PyInt 1) (PyInt 10)] table0).
  assert (reachable t) as Hreach
    by apply reachable_exec_all, reachable_table0.
  assert (insert (PyInt 1) (PyInt 20) t = (inr (), table_overwritten))
    as Hins by (vm_compute; reflexivity).
  destruct (C1_insert_then_get PyNone hash t (PyInt 1) (PyInt 20)
              table_overwritten Hreach Hins) as (_ & _ & Hcs).
  apply Hcs. repeat constructor; simpl; discriminate.
Defined.

Lemma C4_witness :
  __len__ table_overwritten = 2 ∧ occupied_slots table_overwritten = 1.
Proof.
  set (t := exec_all [Call_insert (PyInt 1) (PyInt 10)] table0).
  assert (reachable t) as Hreach
    by apply reachable_exec_all, reachable_table0.
  assert (insert (PyInt 1) (PyInt 20) t = (inr (), table_overwritten))
    as Hins by (vm_compute; reflexivity).
  destruct (C4_counter_counts_calls PyNone hash t (PyInt 1) (PyInt 20)
              table_overwritten Hreach Hins) as [Hlen Hover].
  destruct (Hover (LevelSlot 0 0) (Entry (PyInt 1) (PyInt 10) true))
    as (_ & _ & Hslots & _).
  - rewrite find_slot_path. vm_compute. reflexivity.
  - reflexivity.
  - split; [rewrite Hlen | rewrite Hslots]; vm_compute; reflexivity.
Defined.

Lemma C5_witness :
  num_inserts table_full >= max_inserts table_full ∧
  insert (PyInt 4) (PyInt 40) table_full
    = (inl (RuntimeError "Hash table is full."), table_full).
Proof.
  assert (num_inserts table_full >= max_inserts table_full) as Hfull
    by (vm_compute; discriminate).
  split; [exact Hfull |].
  exact (C5_insert_at_capacity hash table_full (PyInt 4) (PyInt 40) Hfull).
Defined.

Lemma C7_witness :
  items table_of_pairs ≡ₚ pairs ∧ items table_of_pairs_swapped ≡ₚ pairs ∧
  get (PyInt 2) None table_of_pairs = (inr (PyInt 20), table_of_pairs) ∧
  get (PyInt 2) None table_of_pairs_swapped
    = (inr (PyInt 20), table_of_pairs_swapped).
Proof.
  destruct (C7_round_trip PyNone hash 5 (1 / 2) lcg table0 pairs
              pairs_swapped table_of_pairs table_of_pairs_swapped)
    as (Hitems & Hitems' & Hget).
  - exact init_table0.
  - repeat constructor; simpl; rewrite ?elem_of_cons, ?elem_of_nil;
      intuition discriminate.
  - apply perm_swap.
  - vm_compute. reflexivity.
  - vm_compute. reflexivity.
  - split; [exact Hitems |]. split; [exact Hitems' |].
    apply Hget. right. left.
Defined.


Lemma C10_witness :
  0 ≤ _hash hash (PyInt 2) (special_salt table_with_duplicate) < 2 ^ 31 ∧
  outcome PyNone hash (Call_get (PyInt 2) None) table_with_duplicate
    ≠ Some IndexError.
Proof.
  assert (reachable table_with_duplicate) as Hreach
    by (do 2 apply reachable_exec_all; apply reachable_table0).
  destruct (C10_indices_in_bounds PyNone hash table_with_duplicate
              (PyInt 2) Hreach) as (Hhash & _ & _ & _ & _ & Hcalls).
  split; [apply Hhash | apply Hcalls].
Defined.

(** C2. The invariant fails. After [t[1] = 10; t[2] = 20; del t[1]]
    the key 2 sits in the second slot of its bucket and the first slot
    is free; [t[2] = 30] then writes the first slot and leaves the
    second one as it is. The key 2 now occupies two slots, and the
    re-insertion of an existing key has raised the number of occupied
    slots from one to two. *)
Theorem C2_key_in_two_slots :
  reachable table_with_hole ∧
  get (PyInt 2) None table_with_hole = (inr (PyInt 20), table_with_hole) ∧
  occupied_slots table_with_hole = 1 ∧
  insert (PyInt 2) (PyInt 30) table_with_hole = (inr (), table_with_duplicate) ∧
  reachable table_with_duplicate ∧
  occupied_slots table_with_duplicate = 2 ∧
  entry_at table_with_duplicate (LevelSlot 0 0)
    = Some (Entry (PyInt 2) (PyInt 30) true) ∧
  entry_at table_with_duplicate (LevelSlot 0 1)
    = Some (Entry (PyInt 2) (PyInt 20) true).
Proof.
  split; [apply reachable_exec_all, reachable_table0 |].
  split; [vm_compute; reflexivity |].
  split; [vm_compute; reflexivity |].
  split; [vm_compute; reflexivity |].
  split; [do 2 apply reachable_exec_all; apply reachable_table0 |].
  split; [vm_compute; reflexivity |].
  split; vm_compute; reflexivity.
Qed.

(** C3. In the table with the key 2 in two slots, [del t[2]] returns
    after it has cleared the first of them; [get(2)] then finds the
    second one and returns the old value 20, and [2 in t] is true. *)
Theorem C3_get_after_delete :
  reachable table_with_duplicate ∧
  ∃ t', __delitem__ (PyInt 2) table_with_duplicate = (inr (), t') ∧
        get (PyInt 2) None t' = (inr (PyInt 20), t') ∧
        __contains__ (PyInt 2) t' = (inr true, t').
Proof.
  split; [do 2 apply reachable_exec_all; apply reachable_table0 |].
  eexists. split; [vm_compute; reflexivity |].
  split; vm_compute; reflexivity.
Qed.

(** C6. After [t[1] = 10; t[1] = 20] the counter is 2 and one slot is
    occupied; [clear()] deletes the one key that iteration yields,
    returns, and leaves every slot free and the counter, hence
    [len(t)], at 1. *)
Theorem C6_len_after_clear :
  reachable table_overwritten ∧
  ∃ t', clear table_overwritten = (inr (), t') ∧
        items t' = [] ∧ __len__ t' = 1.
Proof.
  split; [apply reachable_exec_all, reachable_table0 |].
  eexists. split; [vm_compute; reflexivity |].
  split; vm_compute; reflexivity.
Qed.

(** C9. The bound [beta >= 1] fails on a valid input.
    [FunnelHashTable(5, delta=1e-320)] passes the test [0 < delta < 1];
    the quotient [1 / delta] overflows to infinity, [log2] and [ceil]
    return the infinity, and its conversion to [int] stores
    [beta = -2 ** 31], and likewise [alpha], whatever [log2] returns
    on finite arguments. The bounds on [max_inserts] hold there. *)
Theorem C9_beta_at_tiny_delta (log2_finite : float → float) :
  binary64.valid_delta delta_1e_320 = true ∧
  (1 / delta_1e_320)%float = infinity ∧
  binary64.log2 log2_finite infinity = infinity ∧
  (2 * infinity)%float = infinity ∧
  binary64.ceil infinity = infinity ∧
  binary64.to_int infinity = - 2 ^ 31 ∧
  binary64.beta log2_finite delta_1e_320 = - 2 ^ 31 ∧
  binary64.alpha log2_finite delta_1e_320 = - 2 ^ 31 ∧
  binary64.max_inserts 5 delta_1e_320 = 5 ∧
  binary64.special_size 5 delta_1e_320 = 1.
Proof.
  split; [vm_compute; reflexivity |].
  split; [vm_compute; reflexivity |].
  split; [reflexivity |].
  split; [vm_compute; reflexivity |].
  split; [reflexivity |].
  split; [reflexivity |].
  split; [vm_compute; reflexivity |].
  split; [vm_compute; reflexivity |].
  split; vm_compute; reflexivity.
Qed.

(** The machine rounds the product [delta * capacity]: for
    [FunnelHashTable(10, delta=0.3)] it is 3.0 and [max_inserts] is 7,
    while the exact product of the double 0.3 and 10 lies below 3 and
    the constant over the reals is 8. *)
Lemma max_inserts_rounds_the_product :
  binary64.max_inserts 10 delta_0_3 = 7 ∧
  Prim2SF delta_0_3 = S754_finite false 5404319552844595 (-54) ∧
  derive.max_inserts 10 (5404319552844595 / 18014398509481984) = 8.
Proof.
  split; [vm_compute; reflexivity |]. split; [vm_compute; reflexivity |].
  unfold derive.max_inserts. rewrite (int_floor_eq _ 2); [done | lra..].
Qed.

(** Instances of the further properties. *)

Lemma reachable_table_one : reachable table_one.
Proof. apply reachable_exec_all, reachable_table0. Qed.

Lemma reachable_table_overwritten : reachable table_overwritten.
Proof. apply reachable_exec_all, reachable_table0. Qed.

Lemma init_table_of_pairs :
  __init__ PyNone hash 5 (Some pairs) (1 / 2) lcg = inr table_of_pairs.
Proof.
  apply (init_with_data _ _ _ _ _ _ table0); [exact init_table0 |].
  vm_compute. reflexivity.
Qed.

Lemma keys_table0 : keys table0 = [].
Proof. vm_compute. reflexivity. Qed.

Lemma keys_table_one : keys table_one = [PyInt 1].
Proof. vm_compute. reflexivity. Qed.

Lemma keys_table_overwritten : keys table_overwritten = [PyInt 1].
Proof. vm_compute. reflexivity. Qed.

Lemma insert_table0 :
  insert (PyInt 1) (PyInt 10) table0 = (inr (), table_one).
Proof. vm_compute. reflexivity. Qed.

Lemma X2_witness :
  (get (PyInt 1) None table_overwritten).2 = table_overwritten ∧
  (__contains__ (PyInt 7) table_overwritten).2 = table_overwritten.
Proof.
  split.
  - apply (X2_lookups_do_not_mutate PyNone hash table_overwritten
             (PyInt 1) None reachable_table_overwritten).
  - apply (X2_lookups_do_not_mutate PyNone hash table_overwritten
             (PyInt 7) None reachable_table_overwritten).
Defined.

Lemma X3_witness :
  outcome PyNone hash (Call_insert (PyInt 4) (PyInt 40)) table_full
    = Some (RuntimeError "Hash table is full.") ∧
  exec PyNone hash (Call_insert (PyInt 4) (PyInt 40)) table_full = table_full.
Proof.
  assert (outcome PyNone hash (Call_insert (PyInt 4) (PyInt 40)) table_full
            = Some (RuntimeError "Hash table is full.")) as Hraise
    by (vm_compute; reflexivity).
  split; [exact Hraise |].
  apply (X3_raising_call_changes_nothing PyNone hash table_full _ _
           (reachable_exec_all _ _ _ _ reachable_table0) Hraise).
Defined.

Lemma X4_witness :
  get (PyInt 1) None table0 = (inl KeyError, table0) ∧
  __delitem__ (PyInt 1) table0 = (inl KeyError, table0) ∧
  pop PyNone hash (PyInt 1) (Some PyNone) table0 = (inr PyNone, table0).
Proof.
  destruct (X4_missing_key PyNone hash table0 (PyInt 1) PyNone)
    as (Hget & _ & _ & Hdel & _ & Hpop).
  - exact reachable_table0.
  - rewrite keys_table0. apply not_elem_of_nil.
  - split; [exact Hget |]. split; [exact Hdel | exact Hpop].
Defined.

Lemma X5_witness :
  ∃ v, (PyInt 1, v) ∈ items table_overwritten ∧
       get (PyInt 1) None table_overwritten = (inr v, table_overwritten) ∧
       __contains__ (PyInt 1) table_overwritten
         = (inr true, table_overwritten).
Proof.
  apply (X5_present_key PyNone hash table_overwritten (PyInt 1) None).
  - exact reachable_table_overwritten.
  - rewrite keys_table_overwritten. apply list_elem_of_singleton. reflexivity.
Defined.

Lemma X6_witness :
  __contains__ (PyInt 1) table_overwritten = (inr true, table_overwritten)
  ↔ PyInt 1 ∈ keys table_overwritten.
Proof.
  apply (X6_membership_is_iteration PyNone hash table_overwritten (PyInt 1)
           reachable_table_overwritten).
Defined.

Lemma X7_witness :
  ∃ v t', get (PyInt 1) None table_overwritten = (inr v, table_overwritten) ∧
          __delitem__ (PyInt 1) table_overwritten = (inr (), t') ∧
          pop PyNone hash (PyInt 1) None table_overwritten = (inr v, t') ∧
          items table_overwritten ≡ₚ (PyInt 1, v) :: items t' ∧
          __len__ t' = __len__ table_overwritten - 1.
Proof.
  apply (X7_delete_and_pop PyNone hash table_overwritten (PyInt 1) None).
  - exact reachable_table_overwritten.
  - rewrite keys_table_overwritten. apply list_elem_of_singleton. reflexivity.
Defined.

Lemma X8_witness : frozen table0 table_overwritten.
Proof.
  exact (X8_layout_is_fixed PyNone hash table0
           [Call_insert (PyInt 1) (PyInt 10);
            Call_insert (PyInt 1) (PyInt 20)]
           reachable_table0).
Defined.


Lemma X10_witness :
  items table_one ≡ₚ (PyInt 1, PyInt 10) :: items table0 ∧
  occupied_slots table_one = occupied_slots table0 + 1.
Proof.
  apply (X10_insert_new_key PyNone hash table0 (PyInt 1) (PyInt 10) table_one).
  - exact reachable_table0.
  - rewrite keys_table0. apply not_elem_of_nil.
  - exact insert_table0.
Defined.

Lemma X11_witness :
  (get (PyInt 1) None table_two_keys).1
    = (get (PyInt 1) None table_overwritten).1 ∧
  (__contains__ (PyInt 1) table_two_keys).1
    = (__contains__ (PyInt 1) table_overwritten).1.
Proof.
  apply (X11_other_keys_untouched PyNone hash table_overwritten
           (Call_insert (PyInt 2) (PyInt 20)) (PyInt 1) None).
  - exact reachable_table_overwritten.
  - simpl. discriminate.
Defined.

Lemma X12_witness :
  num_inserts table0 < max_inserts table0 ∧
  ((∃ t', insert (PyInt 1) (PyInt 10) table0 = (inr (), t'))
   ↔ ∃ s e, s ∈ path table0 (PyInt 1) ∧ entry_at table0 s = Some e ∧
            (occupied e = false ∨ key e = PyInt 1)).
Proof.
  assert (num_inserts table0 < max_inserts table0) as Hroom
    by (simpl; lia).
  split; [exact Hroom |].
  apply (X12_placement_failure PyNone hash table0 (PyInt 1) (PyInt 10)
           reachable_table0 Hroom).
Defined.

Lemma X13_witness :
  ∃ t', clear table_overwritten = (inr (), t') ∧ items t' = [] ∧
        (∀ k, __contains__ k t' = (inr false, t')) ∧
        __len__ t' = __len__ table_overwritten - occupied_slots table_overwritten.
Proof.
  apply (X13_clear PyNone hash table_overwritten reachable_table_overwritten).
Defined.


Lemma X15_witness :
  fits_int 0 = true ∧
  __init__ PyNone hash 0 None (1 / 2) lcg
    = inl (ValueError "Capacity must be at least 1.") ∧
  __init__ PyNone hash 5 None 2 lcg
    = inl (ValueError "Delta must be between 0 and 1.").
Proof.
  split; [reflexivity |]. split.
  - destruct (X15_constructor_validation PyNone hash 0 None (1 / 2) lcg)
      as (Hcap & _); [reflexivity |].
    apply Hcap. lia.
  - destruct (X15_constructor_validation PyNone hash 5 None 2 lcg)
      as (_ & Hdelta & _); [reflexivity |].
    apply Hdelta; [lia | lra].
Defined.

Lemma X16_witness :
  __len__ table_of_pairs = len pairs ∧
  get (PyInt 2) None table_of_pairs = (inr (PyInt 20), table_of_pairs) ∧
  get (PyInt 3) None table_of_pairs = (inl KeyError, table_of_pairs).
Proof.
  split; [| split].
  - apply (X16_constructor_with_data PyNone hash 5 pairs (1 / 2) lcg
             table_of_pairs (PyInt 2) init_table_of_pairs).
  - apply (X16_constructor_with_data PyNone hash 5 pairs (1 / 2) lcg
             table_of_pairs (PyInt 2) init_table_of_pairs).
  - apply (X16_constructor_with_data PyNone hash 5 pairs (1 / 2) lcg
             table_of_pairs (PyInt 3) init_table_of_pairs).
Defined.

Lemma init_table20 : __init__ PyNone hash 20 None (1 / 2) lcg = inr table20.
Proof.
  unfold __init__.
  change (negb (fits_int 20)) with false. cbv iota.
  rewrite bool_decide_eq_false_2 by lia.
  destruct (Rlt_dec 0 (1 / 2)); [| lra].
  destruct (Rlt_dec (1 / 2) 1); [| lra].
  rewrite max_inserts_20_half, alpha_half, beta_half, special_size_20_half.
  change (py_floordiv (20 - 7) 2) with (inr (A:=Exn) 6).
  cbv beta iota.
  change (range 0 14) with (0 :: 1 :: 2 :: 3 :: 4 :: range 5 14).
  rewrite build_levels_cons by lia. cbv zeta.
  rewrite a_0_20_half. change (6 - Z.min 2 6) with 4.
  rewrite build_levels_cons by lia. cbv zeta.
  rewrite a_i_20_half by lia. change (4 - Z.min 1 4) with 3.
  rewrite build_levels_cons by lia. cbv zeta.
  rewrite a_i_20_half by lia. change (3 - Z.min 1 3) with 2.
  rewrite build_levels_cons by lia. cbv zeta.
  rewrite a_i_20_half by lia. change (2 - Z.min 1 2) with 1.
  rewrite build_levels_cons by lia. cbv zeta.
  rewrite a_i_20_half by lia. change (1 - Z.min 1 1) with 0.
  rewrite build_levels_break by lia.
  reflexivity.
Qed.

Lemma reachable_table20 : reachable table20.
Proof. eapply reachable_init, init_table20. Qed.

(** The slot that holds the key 2 is not on the probe path of the key 1,
    and the two tables differ in this slot only. *)
Lemma off_path_table20 : LevelSlot 0 2 ∉ path table20_a (PyInt 1).
Proof.
  intros [Hin | Hin]%elem_of_app.
  - apply level_path_elem in Hin as (i & idx & [= <- <-] & _ & Hidx).
    assert (bucket_start hash table20_a (PyInt 1) 0 = 0) as Hstart
      by (vm_compute; reflexivity).
    rewrite Hstart in Hidx. change (beta table20_a) with 2 in Hidx. lia.
  - apply special_path_elem in Hin as (j & Hj & _). discriminate Hj.
Qed.

Lemma table20_agree s :
  s ≠ LevelSlot 0 2 → entry_at table20_b s = entry_at table20_a s.
Proof.
  intros Hs.
  assert (table20_a = insert_at (LevelSlot 0 2) (PyInt 2) (PyInt 20) table20)
    as -> by (vm_compute; reflexivity).
  assert (table20_b = insert_at (LevelSlot 0 2) (PyInt 2) (PyInt 30) table20)
    as -> by (vm_compute; reflexivity).
  rewrite !insert_at_entry.
  rewrite !(entry_at_put PyNone hash table20 (LevelSlot 0 2) s (Entry0 PyNone))
    by reflexivity.
  by rewrite !decide_False by done.
Qed.

Lemma X17_witness :
  (get (PyInt 1) None table20_b).1 = (get (PyInt 1) None table20_a).1 ∧
  (insert (PyInt 1) (PyInt 10) table20_b).1
    = (insert (PyInt 1) (PyInt 10) table20_a).1 ∧
  entry_at (insert (PyInt 1) (PyInt 10) table20_a).2 (LevelSlot 0 2)
    = entry_at table20_a (LevelSlot 0 2) ∧
  len (path table20_a (PyInt 1))
    = len (levels table20_a) * beta table20_a + probe_limit table20_a ∧
  1 ≤ probe_limit table20_a ≤ 4.
Proof.
  destruct (X17_scans_are_local PyNone hash table20_a table20_b (PyInt 1)
              (PyInt 10) None)
    as ((Hget & Hins & _) & _ & Hoff & Hlen & Hprobe).
  - apply reachable_exec_all, reachable_table20.
  - apply reachable_exec_all, reachable_table20.
  - repeat split; vm_compute; reflexivity.
  - vm_compute. reflexivity.
  - intros s Hs. apply table20_agree. intros ->.
    by apply off_path_table20 in Hs.
  - change (capacity table20_a) with 20. lia.
  - split; [exact Hget |]. split; [exact Hins |].
    split; [apply Hoff, off_path_table20 |].
    split; [exact Hlen | exact Hprobe].
Defined.


Lemma X18_witness : __delitem__ (PyInt 1) table_one = (inr (), table0).
Proof.
  apply (X18_insert_then_delete PyNone hash table0 (PyInt 1) (PyInt 10)).
  - exact reachable_table0.
  - rewrite keys_table0. apply not_elem_of_nil.
  - exact insert_table0.
Defined.

Lemma X19_witness :
  NoDup (keys table_one) ∧
  keys table_overwritten = keys table_one ∧
  occupied_slots table_overwritten = occupied_slots table_one.
Proof.
  destruct (X19_insert_only_is_a_map PyNone hash 5 None (1 / 2) lcg table0
              [Call_insert (PyInt 1) (PyInt 10)] init_table0)
    as [Hdup Hagain].
  - repeat constructor.
  - split; [exact Hdup |].
    destruct (Hagain (PyInt 1) (PyInt 20) table_overwritten)
      as (Hkeys & Hslots & _).
    + change (PyInt 1 ∈ keys table_one). rewrite keys_table_one.
      apply list_elem_of_singleton. reflexivity.
    + vm_compute. reflexivity.
    + split; [exact Hkeys | exact Hslots].
Defined.

Lemma X20_witness :
  (PyInt 1 ∉ keys table0) ∧
  get (PyInt 1) None table0 = (inl KeyError, table0) ∧
  __contains__ (PyInt 1) table0 = (inr false, table0).
Proof.
  destruct (X20_delete_removes_unique_key PyNone hash table_one (PyInt 1)
              table0) as (Hk & _ & Hget & Hin).
  - exact reachable_table_one.
  - rewrite keys_table_one. apply NoDup_singleton.
  - vm_compute. reflexivity.
  - split; [exact Hk |]. split; [exact Hget | exact Hin].
Defined.

Lemma X21_witness :
  NoDup (keys table_of_pairs) ∧
  ((PyInt 2, PyInt 20) ∈ items table_of_pairs
   ↔ lookup_last (PyInt 2) pairs = Some (PyInt 20)).
Proof.
  destruct (X21_constructor_builds_the_dictionary PyNone hash 5 pairs
              (1 / 2) lcg table_of_pairs init_table_of_pairs)
    as [Hdup Hiff].
  split; [exact Hdup | apply Hiff].
Defined.

Lemma X22_witness :
  outcome PyNone hash (Call_insert (PyInt 4) (PyInt 40)) table_full
    = Some (RuntimeError "Hash table is full.") ∧
  (RuntimeError "Hash table is full." = RuntimeError "Hash table is full." ∨
   RuntimeError "Hash table is full."
     = RuntimeError "Special array insertion failed; table is full.").
Proof.
  assert (outcome PyNone hash (Call_insert (PyInt 4) (PyInt 40)) table_full
            = Some (RuntimeError "Hash table is full.")) as Hraise
    by (vm_compute; reflexivity).
  split; [exact Hraise |].
  apply (X22_exceptions_by_method PyNone hash table_full
           (Call_insert (PyInt 4) (PyInt 40)) _
           (reachable_exec_all _ _ _ _ reachable_table0) Hraise).
Defined.
End Runs.
